(** * gosdk (zboxcore/sdk): shard dispatch, commit worker and list consensus

    A shallow embedding of three files of the SDK:
    - [zboxcore/sdk/thumbnailupload.go]  (module [Thumbnail]),
    - the commit worker                  (module [Commit]),
    - the list worker                    (module [Listing]).

    Go values are modelled as follows: [string] is [String.string], [[]byte]
    is [list Byte.byte], [int64]/[uint32] are [Z] with the wrap-around written
    out, an [error] is its message ([None] is [nil]), a Go map is a [gmap],
    and a channel is the chronological log of the values sent on it. *)

From Stdlib Require Import ZArith Lia Ascii String Sorted.
From Stdlib.Strings Require Import Byte.
From stdpp Require Import gmap strings list fin_maps pretty.

Local Open Scope Z_scope.

(** ** Shared Go vocabulary *)

Definition error : Type := string.
Definition bytes : Type := list Byte.byte.

(** How the execution of a Go function body ends.  [Panic] carries the state
    reached when a run-time panic (index out of range, nil dereference) is
    raised; [OutOfFuel] is an artefact of bounded loops in the model and is
    shown to be unreachable where it matters. *)
Inductive outcome (A : Type) : Type :=
| Done (a : A)
| Panic (a : A)
| OutOfFuel.
Arguments Done {A} a.
Arguments Panic {A} a.
Arguments OutOfFuel {A}.

Definition wrap64 (z : Z) : Z := (z + 2 ^ 63) mod 2 ^ 64 - 2 ^ 63.

(** [^x] on a [uint32]: exclusive or with the all-ones word. *)
Definition not32 (x : Z) : Z := Z.lxor x 4294967295.

(** [bits.TrailingZeros32]: index of the lowest set bit, 32 for zero. *)
Fixpoint tz_scan (n : nat) (k : Z) (x : Z) : Z :=
  match n with
  | O => k
  | S n' => if Z.testbit x k then k else tz_scan n' (k + 1) x
  end.

Definition TrailingZeros32 (x : Z) : Z := tz_scan 32 0 x.

(** [hex.EncodeToString]: two lowercase digits per byte. *)
Definition hexDigit (n : N) : ascii :=
  match n with
  | 0 => "0" | 1 => "1" | 2 => "2" | 3 => "3" | 4 => "4" | 5 => "5"
  | 6 => "6" | 7 => "7" | 8 => "8" | 9 => "9" | 10 => "a" | 11 => "b"
  | 12 => "c" | 13 => "d" | 14 => "e" | _ => "f"
  end%N%char.

Fixpoint hexEncodeToString (b : bytes) : string :=
  match b with
  | [] => EmptyString
  | x :: r =>
      String (hexDigit (Byte.to_N x / 16))
        (String (hexDigit (Byte.to_N x mod 16)) (hexEncodeToString r))
  end.

(** The positions of the set bits of a 32-bit mask, lowest first. *)
Definition setBits (mask : Z) : list Z :=
  filter (λ p, Z.testbit mask p = true) (seqZ 0 32).

(** A [uint32] value, seen through its bits. *)
Definition word32 (i : Z) : Prop :=
  0 ≤ i ∧ ∀ q, 32 ≤ q → Z.testbit i q = false.

(** The set bits of [i] at positions [k], [k+1], ..., 31. *)
Definition bitsFrom (k : Z) (i : Z) : list Z :=
  filter (λ p, Z.testbit i p = true) (seqZ k (32 - k)).

(** ** zboxcore/sdk/thumbnailupload.go *)
Module Thumbnail.

(** The collaborators of the upload session that live in other packages:
    the erasure encoder and the digest of the running hash. *)
Class Deps := {
  StreamEncoder : Type;
  NewEncoder : Z → Z → StreamEncoder + error;
  Encode : StreamEncoder → bytes → list bytes + error;
  (** [hash.Hash.Sum(nil)] of a hash that was fed [written]. *)
  Sum : bytes → bytes;
}.

Record FileMeta := { ThumbnailSize : Z; ThumbnailHash : string }.

(** The fields of [UploadRequest] that the two functions touch.
    [thumbnailHash] is the state of the running hash, kept as the bytes
    written to it through [thumbnailHashWr]; [uploadThumbCh] is the number of
    channels in the slice, and [sent] logs every value sent, in order,
    together with the index of the channel it was sent on. *)
Record UploadRequest := {
  filemeta : FileMeta;
  thumbRemaining : Z;
  isRepair : bool;
  thumbnailHash : bytes;
  datashards : Z;
  parityshards : Z;
  uploadMask : Z;
  uploadThumbCh : nat;
  sent : list (nat * bytes);
}.

Definition set_sent (req : UploadRequest) (l : list (nat * bytes)) :=
  {| filemeta := filemeta req; thumbRemaining := thumbRemaining req;
     isRepair := isRepair req; thumbnailHash := thumbnailHash req;
     datashards := datashards req; parityshards := parityshards req;
     uploadMask := uploadMask req; uploadThumbCh := uploadThumbCh req;
     sent := l |}.

Definition set_thumbnailHash (req : UploadRequest) (h : bytes) :=
  {| filemeta := filemeta req; thumbRemaining := thumbRemaining req;
     isRepair := isRepair req; thumbnailHash := h;
     datashards := datashards req; parityshards := parityshards req;
     uploadMask := uploadMask req; uploadThumbCh := uploadThumbCh req;
     sent := sent req |}.

Definition set_thumbRemaining (req : UploadRequest) (r : Z) :=
  {| filemeta := filemeta req; thumbRemaining := r;
     isRepair := isRepair req; thumbnailHash := thumbnailHash req;
     datashards := datashards req; parityshards := parityshards req;
     uploadMask := uploadMask req; uploadThumbCh := uploadThumbCh req;
     sent := sent req |}.

Definition set_ThumbnailHash (req : UploadRequest) (h : string) :=
  {| filemeta := {| ThumbnailSize := ThumbnailSize (filemeta req);
                    ThumbnailHash := h |};
     thumbRemaining := thumbRemaining req;
     isRepair := isRepair req; thumbnailHash := thumbnailHash req;
     datashards := datashards req; parityshards := parityshards req;
     uploadMask := uploadMask req; uploadThumbCh := uploadThumbCh req;
     sent := sent req |}.

(** [[]byte("done")] *)
Definition doneBytes : bytes := [Byte.x64; Byte.x6f; Byte.x6e; Byte.x65].

(** The loop shared by [pushThumbnailData] (lines 33-38) and
    [completeThumbnailPush] (lines 81-86):

      c, pos := 0, 0
      for i := req.uploadMask; i != 0; i &= ^(1 << uint32(pos)) {
          pos = bits.TrailingZeros32(i)
          req.uploadThumbCh[c] <- VALUE
          c++
      }

    [payload pos] is VALUE ([shards[pos]], or the constant "done"); [None]
    stands for an index out of range.  [nch] is [len(req.uploadThumbCh)]. *)
Fixpoint maskLoop (fuel : nat) (payload : Z → option bytes) (nch : nat)
    (i : Z) (c : nat) (log : list (nat * bytes)) : outcome (list (nat * bytes)) :=
  if i =? 0 then Done log
  else match fuel with
       | O => OutOfFuel
       | S fuel' =>
           let pos := TrailingZeros32 i in
           match payload pos with
           | None => Panic log
           | Some v =>
               if (c <? nch)%nat
               then maskLoop fuel' payload nch
                      (Z.land i (not32 (Z.shiftl 1 pos mod 2 ^ 32)))
                      (S c) (log ++ [(c, v)])
               else Panic log
           end
       end.

(** [int64(math.Min(float64(a), float64(b)))] for [b = len(data)]: the
    conversions are exact, and the result is the smaller of the two, as long
    as [b < 2^53] and [a > -2^53]. *)
Definition minViaFloat64 (a b : Z) : Z := Z.min a b.

Section ThumbnailCode.
Context `{Deps}.

Definition pushThumbnailData (req : UploadRequest) (data : bytes)
  : outcome (UploadRequest * option error) :=
  let n := minViaFloat64 (thumbRemaining req) (Z.of_nat (length data)) in
  (* data[:n] is only evaluated when not repairing; a negative bound panics *)
  if negb (isRepair req) && (n <? 0) then Panic (req, None) else
  let req1 :=
    if negb (isRepair req)
    then set_thumbnailHash req (thumbnailHash req ++ take (Z.to_nat n) data)
    else req in
  let req2 := set_thumbRemaining req1 (wrap64 (thumbRemaining req1 - n)) in
  match NewEncoder (datashards req2) (parityshards req2) with
  | inr err => Done (req2, Some err)
  | inl erasureencoder =>
      match Encode erasureencoder data with
      | inr err => Done (req2, Some err)
      | inl shards =>
          match maskLoop 32 (λ pos, shards !! Z.to_nat pos) (uploadThumbCh req2)
                  (uploadMask req2) 0 (sent req2) with
          | Done log => Done (set_sent req2 log, None)
          | Panic log => Panic (set_sent req2 log, None)
          | OutOfFuel => OutOfFuel
          end
      end
  end.

Definition completeThumbnailPush (req : UploadRequest)
  : outcome (UploadRequest * option error) :=
  if negb (isRepair req) then
    let req1 := set_ThumbnailHash req (hexEncodeToString (Sum (thumbnailHash req))) in
    match maskLoop 32 (λ _, Some doneBytes) (uploadThumbCh req1)
            (uploadMask req1) 0 (sent req1) with
    | Done log => Done (set_sent req1 log, None)
    | Panic log => Panic (set_sent req1 log, None)
    | OutOfFuel => OutOfFuel
    end
  else Done (req, None).

End ThumbnailCode.

End Thumbnail.

(** ** Packages the SDK files import *)

(** [strconv.FormatInt(x, 10)] *)
Definition FormatInt (x : Z) : string := pretty x.

(** [encryption.Hash]: the digest function of the SDK, kept abstract. *)
Module encryption.
Class Hasher := { Hash : string → string }.
End encryption.

(** Modelled from the spec: package [fileref] is not among the sources.  A
    reference tree is a directory/file hierarchy; the fields are those the
    sources read.  The dynamic type of a child and its [Type] field agree
    ([*FileRef] has type [FILE], [*Ref] has type [DIRECTORY]), so the type is
    read off the constructor and the type assertion to [*FileRef] in the list
    worker cannot fail. *)
Module fileref.

Definition FILE : string := "f".
Definition DIRECTORY : string := "d".

#[warnings="-register-all"] Inductive RefEntity : Type :=
| DirRef (Name Path Hash : string) (NumBlocks : Z) (Children : list RefEntity)
| FileRef (Name Path Hash : string) (NumBlocks : Z)
          (Size : Z) (ActualFileHash MimeType : string).

Record Ref := {
  Type_ : string;
  Name : string;
  Path : string;
  Hash : string;
  NumBlocks : Z;
  Children : list RefEntity;
}.

Definition GetType (e : RefEntity) : string :=
  match e with DirRef _ _ _ _ _ => DIRECTORY | FileRef _ _ _ _ _ _ _ => FILE end.
Definition GetName (e : RefEntity) : string :=
  match e with DirRef n _ _ _ _ => n | FileRef n _ _ _ _ _ _ => n end.
Definition GetPath (e : RefEntity) : string :=
  match e with DirRef _ p _ _ _ => p | FileRef _ p _ _ _ _ _ => p end.
Definition GetNumBlocks (e : RefEntity) : Z :=
  match e with DirRef _ _ _ b _ => b | FileRef _ _ _ b _ _ _ => b end.

End fileref.

(** [blockchain.StorageNode]: the two fields the sources read. *)
Module blockchain.
Record StorageNode := { ID : string; Baseurl : string }.
End blockchain.

(** Modelled from the spec: the transport ([zboxutil.HttpDo] over [net/http])
    is not among the sources; the spec gives it as a call that yields a
    status and a body, or an error.  This is what [HttpDo] hands to its
    callback: a transport error, or a response with a status code and a body
    that [ioutil.ReadAll] either reads or fails on.  [HttpDo] returns what
    the callback returns. *)
Inductive HttpReply : Type :=
| TransportError (err : error)
| Reply (StatusCode : Z) (body : string + error).

Definition StatusOK : Z := 200.

(** ** The commit worker *)
Module Commit.
Import encryption blockchain.

(** [marker.WriteMarker], with the fields the spec lists for it; the
    commit worker sets all of them but [Signature], which [Sign] fills in. *)
Record WriteMarker := {
  AllocationRoot : string;
  PreviousAllocationRoot : string;
  AllocationID : string;
  Size : Z;
  BlobberID : string;
  Timestamp : Z;
  ClientID : string;
  Signature : string;
}.

Definition set_Signature (wm : WriteMarker) (sig : string) : WriteMarker :=
  {| AllocationRoot := AllocationRoot wm;
     PreviousAllocationRoot := PreviousAllocationRoot wm;
     AllocationID := AllocationID wm; Size := Size wm;
     BlobberID := BlobberID wm; Timestamp := Timestamp wm;
     ClientID := ClientID wm; Signature := sig |}.

Record CommitResult := { Success : bool; ErrorMessage : string }.

Definition ErrorCommitResult (errMsg : string) : CommitResult :=
  {| Success := false; ErrorMessage := errMsg |}.

Definition SuccessCommitResult : CommitResult :=
  {| Success := true; ErrorMessage := "" |}.

(** [allocationchange.AllocationChange] is an interface; a value of it is the
    record of its methods.  [ProcessChange] mutates the tree it is given and
    may fail. *)
Record AllocationChange := {
  ProcessChange : fileref.Ref → fileref.Ref * option error;
  GetAffectedPath : string;
  GetSize : Z;
}.

(** [wg] counts the calls of [wg.Done()] made for this request; [result] is
    the result slot, [None] while it is still nil. *)
Record CommitRequest := {
  changes : list AllocationChange;
  blobber : StorageNode;
  allocationID : string;
  connectionID : string;
  wg : nat;
  result : option CommitResult;
}.

(** The functions of other packages that the commit worker calls. *)
Class Deps := {
  Request : Type;
  (** the embedded [*fileref.ReferencePath] of a [ReferencePathResult] *)
  ReferencePath : Type;
  GetClientPublicKey : string;
  GetClientID : string;
  (** [wm.VerifySignature(key)] *)
  VerifySignature : WriteMarker → string → option error;
  (** [wm.Sign()]: the signature it stores in [wm.Signature], or an error *)
  Sign : WriteMarker → string + error;
  (** [ref.CalculateHash()]: the tree with its hashes recomputed *)
  CalculateHash : fileref.Ref → fileref.Ref;
  (** [lR.GetDirTree(allocationID)]: a tree, or nil and an error *)
  GetDirTree : ReferencePath → string → fileref.Ref + error;
  (** [json.Unmarshal] of a reference-path response *)
  UnmarshalReferencePath : string → (ReferencePath * option WriteMarker) + error;
  (** [json.Marshal] of a write marker *)
  MarshalWriteMarker : WriteMarker → string + error;
  NewReferencePathRequest : string → string → string → Request + error;
  NewCommitRequest : string → string → list (string * string) → Request + error;
  (** the message of [common.NewError(code, msg)] *)
  NewError : string → string → error;
}.

Section CommitCode.
Context `{Hasher} `{Deps}.

Record ReferencePathResult := {
  refPath : ReferencePath;
  LatestWM : option WriteMarker;
}.

(** The network calls a commit attempt makes, in order. *)
Inductive NetCall : Type :=
| CallReferencePath (req : Request)
| CallCommit (req : Request) (wm : WriteMarker).

(** What the outside world answers during one commit attempt. *)
Record World := {
  Now : Z;
  refPathReply : HttpReply;
  commitReply : HttpReply;
}.

Definition finish (commitreq : CommitRequest) (r : CommitResult) : CommitRequest :=
  {| changes := changes commitreq; blobber := blobber commitreq;
     allocationID := allocationID commitreq;
     connectionID := connectionID commitreq;
     wg := S (wg commitreq); result := Some r |}.

(** The callback of the reference-path request (lines 113-138). *)
Definition refPathCallback (r : HttpReply) : ReferencePathResult + error :=
  match r with
  | TransportError err => inr err
  | Reply status (inr err) => inr err
  | Reply status (inl resp_body) =>
      if negb (status =? StatusOK)
      then inr ("List error response: Status: " +:+ pretty status +:+ " - "
                +:+ resp_body +:+ " ")
      else match UnmarshalReferencePath resp_body with
           | inr err => inr err
           | inl (rp, wm) => inl {| refPath := rp; LatestWM := wm |}
           end
  end.

(** The callback of the commit request (lines 228-250). *)
Definition commitCallback (r : HttpReply) : option error :=
  match r with
  | TransportError err => Some err
  | Reply status (inr err) => Some err
  | Reply status (inl resp_body) =>
      if negb (status =? StatusOK)
      then Some (NewError "commit_error" resp_body)
      else None
  end.

Definition commitBlobber (w : World) (req : CommitRequest)
    (rootRef : fileref.Ref) (latestWM : option WriteMarker) (size : Z)
  : option error * list NetCall :=
  let timestamp := Now w in
  let wm :=
    {| AllocationRoot :=
         Hash (fileref.Hash rootRef +:+ ":" +:+ FormatInt timestamp);
       PreviousAllocationRoot :=
         match latestWM with
         | Some l => AllocationRoot l
         | None => ""
         end;
       AllocationID := allocationID req;
       Size := size;
       BlobberID := ID (blobber req);
       Timestamp := timestamp;
       ClientID := GetClientID;
       Signature := "" |} in
  match Sign wm with
  | inr err => (Some err, [])
  | inl sig =>
      let wm := set_Signature wm sig in
      match MarshalWriteMarker wm with
      | inr err => (Some err, [])
      | inl wmData =>
          let body := [("connection_id"%string, connectionID req);
                       ("write_marker"%string, wmData)] in
          match NewCommitRequest (Baseurl (blobber req)) (allocationID req) body with
          | inr err => (Some err, [])
          | inl httpreq =>
              (commitCallback (commitReply w), [CallCommit httpreq wm])
          end
      end
  end.

(** The first loop of [processCommit]: the path of the last change. *)
Definition affectedPath (cs : list AllocationChange) : string :=
  fold_left (λ _ change, GetAffectedPath change) cs ""%string.

(** The second loop (lines 167-174): apply the changes in order and stop at
    the first failure. *)
Fixpoint applyChanges (cs : list AllocationChange) (rootRef : fileref.Ref)
    (size : Z) : fileref.Ref * option error * Z :=
  match cs with
  | [] => (rootRef, None, size)
  | change :: rest =>
      match ProcessChange change rootRef with
      | (rootRef', Some err) => (rootRef', Some err, size)
      | (rootRef', None) =>
          applyChanges rest rootRef' (wrap64 (size + GetSize change))
      end
  end.

Definition mismatchMessage : string :=
  "Allocation root from latest writemarker mismatch".

(** Lines 167-187, once the tree is in hand. *)
Definition applyAndCommit (w : World) (commitreq : CommitRequest)
    (latestWM : option WriteMarker) (rootRef : fileref.Ref)
    (calls : list NetCall) : outcome (CommitRequest * list NetCall) :=
  match applyChanges (changes commitreq) rootRef 0 with
  | (_, Some err, _) => Done (finish commitreq (ErrorCommitResult err), calls)
  | (rootRef, None, size) =>
      match commitBlobber w commitreq rootRef latestWM size with
      | (Some err, calls') =>
          Done (finish commitreq (ErrorCommitResult err), calls ++ calls')
      | (None, calls') =>
          Done (finish commitreq SuccessCommitResult, calls ++ calls')
      end
  end.

Definition processCommit (w : World) (commitreq : CommitRequest)
  : outcome (CommitRequest * list NetCall) :=
  let path := affectedPath (changes commitreq) in
  match NewReferencePathRequest (Baseurl (blobber commitreq))
          (allocationID commitreq) path with
  | inr err => Done (commitreq, [])
  | inl req =>
      if (String.length path =? 0)%nat then Done (commitreq, []) else
      let calls := [CallReferencePath req] in
      match refPathCallback (refPathReply w) with
      | inr err => Done (finish commitreq (ErrorCommitResult err), calls)
      | inl lR =>
          let tree := GetDirTree (refPath lR) (allocationID commitreq) in
          match LatestWM lR with
          | Some latestWM =>
              match VerifySignature latestWM GetClientPublicKey with
              | Some err =>
                  Done (finish commitreq (ErrorCommitResult err), calls)
              | None =>
                  match tree with
                  | inr _ => Panic (commitreq, calls) (* rootRef is nil *)
                  | inl rootRef =>
                      let rootRef := CalculateHash rootRef in
                      let prevAllocationRoot :=
                        Hash (fileref.Hash rootRef +:+ ":"
                              +:+ FormatInt (Timestamp latestWM)) in
                      if negb (String.eqb prevAllocationRoot
                                 (AllocationRoot latestWM))
                      then Done (finish commitreq
                                   (ErrorCommitResult mismatchMessage), calls)
                      else applyAndCommit w commitreq (Some latestWM) rootRef calls
                  end
              end
          | None =>
              match tree with
              | inr err =>
                  Done (finish commitreq (ErrorCommitResult err), calls)
              | inl rootRef => applyAndCommit w commitreq None rootRef calls
              end
          end
      end
  end.

(** *** Vocabulary of the statements about a commit attempt *)

(** The size a batch adds up to when every change succeeds. *)
Definition sumSizes (cs : list AllocationChange) : Z :=
  fold_left (λ size change, wrap64 (size + GetSize change)) cs 0.

(** The tree [processCommit] holds when it reaches the loop over the changes:
    the fetched tree, which, when the node reported a marker, has had its
    hash recomputed and checked against that marker. *)
Definition treeInHand (alloc : string) (lR : ReferencePathResult)
    (rootRef : fileref.Ref) : Prop :=
  match LatestWM lR with
  | None => GetDirTree (refPath lR) alloc = inl rootRef
  | Some prior =>
      VerifySignature prior GetClientPublicKey = None
      ∧ ∃ t, GetDirTree (refPath lR) alloc = inl t
             ∧ rootRef = CalculateHash t
             ∧ Hash (fileref.Hash rootRef +:+ ":"
                     +:+ FormatInt (Timestamp prior))
               = AllocationRoot prior
  end.

(** The value the chain check recomputes for a fetched tree and a marker. *)
Definition expectedRoot (t : fileref.Ref) (prior : WriteMarker) : string :=
  Hash (fileref.Hash (CalculateHash t) +:+ ":" +:+ FormatInt (Timestamp prior)).

End CommitCode.

(** The registry of per-node queues.  A channel is known by the number it got
    when [make] created it; [workers] lists the goroutines started, each with
    the channel and node id it was given. *)
Record Pool := {
  commitChan : option (gmap string nat);
  nextChan : nat;
  workers : list (nat * string);
}.

Definition emptyPool : Pool :=
  {| commitChan := None; nextChan := 0; workers := [] |}.

(** One iteration of the loop of [InitCommitWorker] (lines 76-82), on the
    map itself. *)
Definition registerBlobber (st : gmap string nat * nat * list (nat * string))
    (b : StorageNode) : gmap string nat * nat * list (nat * string) :=
  let '(m, next, ws) := st in
  match m !! ID b with
  | Some _ => st
  | None =>
      let m' := <[ID b := next]> m in
      let blobberChan := next in
      (m', S next, ws ++ [(blobberChan, ID b)])
  end.

(** [InitCommitWorker], run under [initCommitMutex]. *)
Definition InitCommitWorker (blobbers : list StorageNode) (p : Pool) : Pool :=
  let m0 := match commitChan p with
            | None => ∅
            | Some m => m
            end in
  let '(m, next, ws) :=
    fold_left registerBlobber blobbers (m0, nextChan p, workers p) in
  {| commitChan := Some m; nextChan := next; workers := ws |}.

(** The registered queue of a node id, if any. *)
Definition queueOf (p : Pool) (id : string) : option nat :=
  match commitChan p with
  | None => None
  | Some m => m !! id
  end.

(** The workers started for a node id. *)
Definition workersOf (p : Pool) (id : string) : list (nat * string) :=
  filter (λ w, w.2 = id) (workers p).

(** *** Vocabulary of the statements about the registry *)

(** What the loop keeps true: every registered id has exactly one worker,
    which serves the registered channel; an id without a queue has no worker;
    channel numbers below [next] only; no channel is shared. *)
Definition poolInv (st : gmap string nat * nat * list (nat * string)) : Prop :=
  let '(m, next, ws) := st in
  (∀ id ch, m !! id = Some ch →
     filter (λ w, w.2 = id) ws = [(ch, id)] ∧ (ch < next)%nat)
  ∧ (∀ id, m !! id = None → filter (λ w, w.2 = id) ws = [])
  ∧ (∀ id1 id2 ch, m !! id1 = Some ch → m !! id2 = Some ch → id1 = id2).

(** The loop state a pool stands for. *)
Definition loopState (p : Pool)
  : gmap string nat * nat * list (nat * string) :=
  (match commitChan p with None => ∅ | Some m => m end, nextChan p, workers p).

(** The pool after a series of calls of the initializer. *)
Definition initAll (calls : list (list StorageNode)) (p : Pool) : Pool :=
  fold_left (λ p bs, InitCommitWorker bs p) calls p.

End Commit.

(** ** The list worker *)
Module Listing.
Import encryption blockchain.

(** The embedded [Consensus] counters.  [consensus] counts agreeing
    responses (a small whole number held in a float). *)
Record Consensus := {
  consensus : Z;
  consensusThresh : Z;
  fullconsensus : Z;
}.

(** The parts of other packages the list worker calls. *)
Class Deps := {
  Request : Type;
  (** [Consensus.isConsensusMin]: has the counter reached the configured
      minimum, a function of [consensusThresh] and [fullconsensus]? *)
  isConsensusMin : Consensus → bool;
  NewListRequest : string → string → string → Request + error;
  (** [json.Unmarshal] into a [fileref.ListResult], then its [GetDirTree]:
      a parse error, or the outcome of building the tree. *)
  UnmarshalListResult : string → (fileref.Ref + error) + error;
}.

(** A [*ListResult] that sits in [childResultMap] is known by its key there;
    [Children] holds such keys, so that a later update of the record is seen
    through the child list, as it is through the Go pointers. *)
Record ListResult := {
  Name : string;
  Path : string;
  Type_ : string;
  Size : Z;
  Hash_ : string;
  MimeType : string;
  NumBlocks : Z;
  Children : list string;
  cons : Consensus;
}.

Record listResponse := {
  ref : option fileref.Ref;
  responseStr : string;
  blobberIdx : nat;
  err : option error;
}.

Record ListRequest := {
  allocationID : string;
  blobbers : list StorageNode;
  remotefilepath : string;
  reqCons : Consensus;
}.

Definition emptyListResult : ListResult :=
  {| Name := ""; Path := ""; Type_ := ""; Size := 0; Hash_ := "";
     MimeType := ""; NumBlocks := 0; Children := [];
     cons := {| consensus := 0; consensusThresh := 0; fullconsensus := 0 |} |}.

(** The local variables of [GetListFromBlobbers]. *)
Record MergeState := {
  result : ListResult;
  selected : gmap string string;
  childResultMap : gmap string ListResult;
}.

Definition initialState : MergeState :=
  {| result := emptyListResult; selected := ∅; childResultMap := ∅ |}.

Section ListingCode.
Context `{Hasher} `{Deps}.

(** The identity key of a child (lines 143-146). *)
Definition actualHash (child : fileref.RefEntity) : string :=
  match child with
  | fileref.FileRef _ path _ _ _ fileHash _ => Hash (path +:+ ":" +:+ fileHash)
  | fileref.DirRef _ path _ _ _ => Hash path
  end.

(** Lines 149-152: a fresh record for a child. *)
Definition newChildResult (req : ListRequest) (child : fileref.RefEntity)
  : ListResult :=
  {| Name := fileref.GetName child; Path := fileref.GetPath child;
     Type_ := fileref.GetType child; Size := 0; Hash_ := ""; MimeType := "";
     NumBlocks := 0; Children := [];
     cons := {| consensus := 0;
                consensusThresh := consensusThresh (reqCons req);
                fullconsensus := fullconsensus (reqCons req) |} |}.

(** Lines 156-162: one more agreeing response for a record. *)
Definition countChild (childResult : ListResult) (child : fileref.RefEntity)
  : ListResult :=
  let c := cons childResult in
  let c' := {| consensus := consensus c + 1;
               consensusThresh := consensusThresh c;
               fullconsensus := fullconsensus c |} in
  match child with
  | fileref.FileRef _ _ _ numBlocks size fileHash mime =>
      {| Name := Name childResult; Path := Path childResult;
         Type_ := Type_ childResult;
         Size := wrap64 (Size childResult + size);
         Hash_ := fileHash; MimeType := mime;
         NumBlocks := wrap64 (NumBlocks childResult + numBlocks);
         Children := Children childResult; cons := c' |}
  | fileref.DirRef _ _ _ numBlocks _ =>
      {| Name := Name childResult; Path := Path childResult;
         Type_ := Type_ childResult; Size := Size childResult;
         Hash_ := Hash_ childResult; MimeType := MimeType childResult;
         NumBlocks := wrap64 (NumBlocks childResult + numBlocks);
         Children := Children childResult; cons := c' |}
  end.

Definition set_Children (r : ListResult) (l : list string) : ListResult :=
  {| Name := Name r; Path := Path r; Type_ := Type_ r; Size := Size r;
     Hash_ := Hash_ r; MimeType := MimeType r; NumBlocks := NumBlocks r;
     Children := l; cons := cons r |}.

Definition set_NumBlocks (r : ListResult) (n : Z) : ListResult :=
  {| Name := Name r; Path := Path r; Type_ := Type_ r; Size := Size r;
     Hash_ := Hash_ r; MimeType := MimeType r; NumBlocks := n;
     Children := Children r; cons := cons r |}.

(** The body of the loop over the children of one response (lines 142-169). *)
Definition mergeChild (req : ListRequest) (st : MergeState)
    (child : fileref.RefEntity) : MergeState :=
  let key := actualHash child in
  let old := match childResultMap st !! key with
             | Some r => r
             | None => newChildResult req child
             end in
  let childResult := countChild old child in
  let map' := <[key := childResult]> (childResultMap st) in
  if isConsensusMin (cons childResult) then
    match selected st !! fileref.GetPath child with
    | None =>
        {| result := set_Children (result st) (Children (result st) ++ [key]);
           selected := <[fileref.GetPath child := key]> (selected st);
           childResultMap := map' |}
    | Some _ =>
        {| result := result st; selected := selected st; childResultMap := map' |}
    end
  else
    {| result := result st; selected := selected st; childResultMap := map' |}.

(** The record a child pointer leads to. *)
Definition deref (st : MergeState) (key : string) : ListResult :=
  match childResultMap st !! key with
  | Some r => r
  | None => emptyListResult
  end.

(** Lines 171-173: add the block counts of the current children. *)
Definition addChildBlocks (st : MergeState) : MergeState :=
  {| result :=
       set_NumBlocks (result st)
         (fold_left (λ n key, wrap64 (n + NumBlocks (deref st key)))
            (Children (result st)) (NumBlocks (result st)));
     selected := selected st; childResultMap := childResultMap st |}.

(** Lines 135-140: the root fields, taken from the response at hand. *)
Definition setRoot (r : ListResult) (root : fileref.Ref) : ListResult :=
  {| Name := fileref.Name root; Path := fileref.Path root;
     Type_ := fileref.Type_ root;
     Size := if String.eqb (fileref.Type_ root) fileref.DIRECTORY
             then -1 else Size r;
     Hash_ := Hash_ r; MimeType := MimeType r; NumBlocks := NumBlocks r;
     Children := Children r; cons := cons r |}.

(** The body of the loop over the responses (lines 128-174). *)
Definition mergeResponse (req : ListRequest) (st : MergeState)
    (ti : listResponse) : MergeState :=
  match err ti, ref ti with
  | None, Some root =>
      let st1 := {| result := setRoot (result st) root;
                    selected := selected st;
                    childResultMap := childResultMap st |} in
      addChildBlocks (fold_left (mergeChild req) (fileref.Children root) st1)
  | _, _ => st
  end.

(** [GetListFromBlobbers], given the responses gathered by the fan-out. *)
Definition mergeResponses (req : ListRequest) (lR : list listResponse)
  : MergeState :=
  fold_left (mergeResponse req) lR initialState.

(** The children of the returned listing, read through their pointers. *)
Definition promoted (st : MergeState) : list ListResult :=
  map (deref st) (Children (result st)).

(** What one node answers to a list query. *)
Record NodeAnswer := { listReply : HttpReply }.

(** The callback of the list request (lines 77-103): the response text
    written to [s], the tree assigned to [ref] if any, and the error. *)
Definition listCallback (r : HttpReply)
  : string * option (option fileref.Ref) * option error :=
  match r with
  | TransportError e => (""%string, None, Some e)
  | Reply status (inr e) =>
      (""%string, None, Some ("Error: Resp : " +:+ e))
  | Reply status (inl resp_body) =>
      if status =? StatusOK then
        match UnmarshalListResult resp_body with
        | inr e =>
            (resp_body, None,
             Some ("list entities response parse error: " +:+ e))
        | inl (inr e) =>
            (resp_body, Some None,
             Some ("error getting the dir tree from list response: " +:+ e))
        | inl (inl tree) => (resp_body, Some (Some tree), None)
        end
      else (resp_body, None,
            Some ("error from server list response: " +:+ resp_body))
  end.

Definition emptyRef : fileref.Ref :=
  {| fileref.Type_ := ""; fileref.Name := ""; fileref.Path := "";
     fileref.Hash := ""; fileref.NumBlocks := 0; fileref.Children := [] |}.

(** Sending on a buffered channel of capacity [cap]: [None] when the buffer
    is full and the sender would block. *)
Definition send {A} (cap : nat) (ch : list A) (v : A) : option (list A) :=
  if (length ch <? cap)%nat then Some (ch ++ [v]) else None.

(** What the tasks of one fan-out share: the buffer of [rspCh] and the
    number of [wg.Done()] calls made so far. *)
Record FanState := { rspCh : list listResponse; dones : nat }.

(** What runs at a [return] of [getListInfoFromBlobber], the deferred calls
    in reverse order of their [defer] statements: [listRetFn] sends the
    locals on [rspCh], then [req.wg.Done()]. *)
Definition returning (cap blobberIdx : nat) (ref : option fileref.Ref)
    (s : string) (err : option error) (st : FanState) : option FanState :=
  match send cap (rspCh st)
          {| ref := ref; responseStr := s; blobberIdx := blobberIdx;
             err := err |} with
  | None => None
  | Some ch => Some {| rspCh := ch; dones := S (dones st) |}
  end.

(** [getListInfoFromBlobber] as a step on the shared state.  [ref] starts as
    an empty [Ref] and [s] as the empty string; the callback may replace
    them. *)
Definition getListInfoFromBlobber (req : ListRequest) (blobber : StorageNode)
    (blobberIdx : nat) (answer : HttpReply) (cap : nat) (st : FanState)
  : option FanState :=
  match NewListRequest (Baseurl blobber) (allocationID req)
          (remotefilepath req) with
  | inr e => returning cap blobberIdx (Some emptyRef) "" (Some e) st
  | inl httpreq =>
      match listCallback answer with
      | (s, None, e) => returning cap blobberIdx (Some emptyRef) s e st
      | (s, Some tree, e) => returning cap blobberIdx tree s e st
      end
  end.

(** The tasks started by [getlistFromBlobbers], run to completion one after
    the other in the order [schedule] names them; [None] when a task blocks.
    A task touches the shared state only in its deferred calls, so the order
    of these is all that a schedule of the goroutines decides. *)
Fixpoint runTasks (req : ListRequest) (answers : nat → HttpReply)
    (cap : nat) (schedule : list nat) (st : FanState) : option FanState :=
  match schedule with
  | [] => Some st
  | i :: rest =>
      match blobbers req !! i with
      | None => runTasks req answers cap rest st
      | Some b =>
          match getListInfoFromBlobber req b i (answers i) cap st with
          | None => None
          | Some st' => runTasks req answers cap rest st'
          end
      end
  end.

(** [getlistFromBlobbers]: start one task per node, wait for [numList] calls
    of [Done], then receive [numList] values.  [None] stands for a wait or a
    receive that never returns. *)
Definition getlistFromBlobbers (req : ListRequest) (answers : nat → HttpReply)
    (schedule : list nat) : option (list listResponse) :=
  let numList := length (blobbers req) in
  match runTasks req answers numList schedule {| rspCh := []; dones := 0 |} with
  | None => None
  | Some st =>
      if (dones st <? numList)%nat then None
      else if (length (rspCh st) <? numList)%nat then None
      else Some (take numList (rspCh st))
  end.

Definition GetListFromBlobbers (req : ListRequest) (answers : nat → HttpReply)
    (schedule : list nat) : option MergeState :=
  mergeResponses req <$> getlistFromBlobbers req answers schedule.

(** *** Vocabulary of the statements about the merge *)


(** The children [GetListFromBlobbers] goes through, in order: those of the
    responses that carry a tree and no error. *)
Definition seenChildren (lR : list listResponse) : list fileref.RefEntity :=
  flat_map (λ ti, match err ti, ref ti with
                  | None, Some root => fileref.Children root
                  | _, _ => []
                  end) lR.



End ListingCode.

End Listing.

(** ** Fixtures for the examples *)

(** A stand-in for the digest: it wraps its argument. *)
#[export] Instance fixtureHasher : encryption.Hasher :=
  {| encryption.Hash s := "H(" +:+ s +:+ ")" |}.

Definition fixtureNode (i : string) : blockchain.StorageNode :=
  {| blockchain.ID := i; blockchain.Baseurl := "http://" +:+ i |}.

Module ThumbnailFixture.
Import Thumbnail.

(** A fixture for the examples: the "encoder" cuts the chunk into one-byte
    shards and the "digest" is the identity. *)
#[export] Instance deps : Deps := {|
  StreamEncoder := nat;
  NewEncoder d p :=
    if (d <? 1) || (p <? 0) then inr "EncodingError"%string
    else inl (Z.to_nat (d + p));
  Encode n data := inl (map (λ j, take 1 (drop j data)) (seq 0 n));
  Sum written := written;
|}.

Definition fixtureRequest (repair : bool) : UploadRequest :=
  {| filemeta := {| ThumbnailSize := 8; ThumbnailHash := "" |};
     thumbRemaining := 8; isRepair := repair;
     thumbnailHash := [Byte.x01];
     datashards := 6; parityshards := 2;
     uploadMask := 37; uploadThumbCh := 3; sent := [] |}.

Definition fixtureChunk : bytes :=
  [Byte.x10; Byte.x11; Byte.x12; Byte.x13; Byte.x14; Byte.x15; Byte.x16; Byte.x17].

End ThumbnailFixture.

(** Fixtures of the commit worker. *)
Module CommitFixture.
Import encryption blockchain Commit.

Definition tree (rootHash : string) : fileref.Ref :=
  {| fileref.Type_ := fileref.DIRECTORY; fileref.Name := "/";
     fileref.Path := "/"; fileref.Hash := rootHash;
     fileref.NumBlocks := 0; fileref.Children := [] |}.

Definition signatureOf (wm : WriteMarker) : string :=
  "sig(" +:+ AllocationRoot wm +:+ ")".

(** The marker of the first commit, as the node stores it. *)
Definition marker1 : WriteMarker :=
  {| AllocationRoot := "H(r1:100)"; PreviousAllocationRoot := "";
     AllocationID := "alloc"; Size := 10; BlobberID := "b1";
     Timestamp := 100; ClientID := "client";
     Signature := "sig(H(r1:100))" |}.

(** The same marker with its allocation root replaced after signing. *)
Definition tamperedMarker : WriteMarker :=
  {| AllocationRoot := "H(evil:100)"; PreviousAllocationRoot := "";
     AllocationID := "alloc"; Size := 10; BlobberID := "b1";
     Timestamp := 100; ClientID := "client";
     Signature := "sig(H(r1:100))" |}.

(** A genuine marker of an older state of the tree. *)
Definition staleMarker : WriteMarker :=
  {| AllocationRoot := "H(r0:50)"; PreviousAllocationRoot := "";
     AllocationID := "alloc"; Size := 5; BlobberID := "b1";
     Timestamp := 50; ClientID := "client";
     Signature := "sig(H(r0:50))" |}.

#[export] Instance deps : Deps := {|
  Request := string;
  ReferencePath := fileref.Ref;
  GetClientPublicKey := "pk";
  GetClientID := "client";
  VerifySignature wm key :=
    if String.eqb (Signature wm) (signatureOf wm) then None
    else Some "signature_mismatch"%string;
  Sign wm := inl (signatureOf wm);
  CalculateHash t := t;
  GetDirTree rp alloc := inl rp;
  UnmarshalReferencePath body :=
    if String.eqb body "fresh" then inl (tree "r0", None)
    else if String.eqb body "after1" then inl (tree "r1", Some marker1)
    else if String.eqb body "tampered" then inl (tree "r1", Some tamperedMarker)
    else if String.eqb body "stale" then inl (tree "r1", Some staleMarker)
    else inr "invalid character"%string;
  MarshalWriteMarker wm := inl (AllocationRoot wm);
  NewReferencePathRequest base alloc path :=
    inl (base +:+ "/referencepath/" +:+ alloc +:+ "?path=" +:+ path);
  NewCommitRequest base alloc body := inl (base +:+ "/commit/" +:+ alloc);
  NewError code msg := code +:+ ": " +:+ msg;
|}.

(** A change that rewrites the root hash, and one that fails. *)
Definition setHash (h : string) (size : Z) : AllocationChange :=
  {| ProcessChange t := (tree h, None);
     GetAffectedPath := "/a"; GetSize := size |}.

Definition failing (h : string) : AllocationChange :=
  {| ProcessChange t := (tree h, Some "invalid_reference_path"%string);
     GetAffectedPath := "/a"; GetSize := 7 |}.

Definition request (cs : list AllocationChange) : CommitRequest :=
  {| changes := cs; blobber := fixtureNode "b1";
     allocationID := "alloc"; connectionID := "conn";
     wg := 0; result := None |}.

Definition world (now : Z) (body : string) : World :=
  {| Now := now; refPathReply := Reply 200 (inl body);
     commitReply := Reply 200 (inl ""%string) |}.

Definition fetchCall : NetCall :=
  CallReferencePath ("http://b1/referencepath/alloc?path=/a"%string : Request).


End CommitFixture.

(** Fixtures of the list worker. *)
Module ListingFixture.
Import encryption blockchain Listing.

(** A file [/a] of two blocks with the given content hash, and the listing
    of the root directory that holds it. *)
Definition fileA (contentHash : string) : fileref.RefEntity :=
  fileref.FileRef "a" "/a" "" 2 5 contentHash "text/plain".

Definition rootWith (children : list fileref.RefEntity) : fileref.Ref :=
  {| fileref.Type_ := fileref.DIRECTORY; fileref.Name := "/";
     fileref.Path := "/"; fileref.Hash := ""; fileref.NumBlocks := 0;
     fileref.Children := children |}.

(** Modelled from the spec: [isConsensusMin] is not among the sources; the
    spec calls the minimum a function of the consensus threshold and of the
    expected number of responders.  Here it is reached when the share of
    agreeing responses, in percent of [fullconsensus], is at least
    [consensusThresh]. *)
#[export] Instance deps : Deps := {|
  Request := string;
  isConsensusMin c :=
    consensusThresh c * fullconsensus c <=? consensus c * 100;
  NewListRequest base alloc path :=
    if String.eqb base "" then inr "invalid url"%string
    else inl (base +:+ "/list/" +:+ alloc +:+ "?path=" +:+ path);
  UnmarshalListResult body :=
    if String.eqb body "v1" then inl (inl (rootWith [fileA "h1"]))
    else if String.eqb body "v2" then inl (inl (rootWith [fileA "h2"]))
    else if String.eqb body "file" then inl (inr "invalid_ref_path"%string)
    else inr "invalid character"%string;
|}.

(** Four nodes and a threshold in percent. *)
Definition request (thresh : Z) : ListRequest :=
  {| allocationID := "alloc";
     blobbers := [fixtureNode "b0"; fixtureNode "b1"; fixtureNode "b2";
                  fixtureNode "b3"];
     remotefilepath := "/";
     reqCons := {| consensus := 0; consensusThresh := thresh;
                   fullconsensus := 4 |} |}.

Definition ok (i : nat) (children : list fileref.RefEntity) : listResponse :=
  {| ref := Some (rootWith children); responseStr := ""; blobberIdx := i;
     err := None |}.

(** Three nodes report [/a] with content [h1], the fourth with [h2]. *)
Definition threeAgree : list listResponse :=
  [ok 0 [fileA "h1"]; ok 1 [fileA "h1"]; ok 2 [fileA "h1"]; ok 3 [fileA "h2"]].


(** One node reports a directory [/a:b] and a file [/a] with content [b]:
    two children of different paths with one and the same identity key. *)
Definition sharedKey : list listResponse :=
  [ok 0 [fileref.DirRef "a:b" "/a:b" "" 1 [];
         fileref.FileRef "a" "/a" "" 1 5 "b" "text/plain"]].

(** The answers of the four nodes: two listings, a server error, and no
    answer at all. *)
Definition answers (i : nat) : HttpReply :=
  match i with
  | 0%nat => Reply 200 (inl "v1"%string)
  | 1%nat => Reply 200 (inl "v2"%string)
  | 2%nat => Reply 500 (inl "oops"%string)
  | _ => TransportError "timeout"
  end.

End ListingFixture.

(** * The rest of the three files *)

(** The state a run ends in, panics included. *)
Definition endOf {A} (o : outcome A) : option A :=
  match o with
  | Done a => Some a
  | Panic a => Some a
  | OutOfFuel => None
  end.

(** ** [processThumbnail] *)
Module ThumbnailFile.
Import Thumbnail.

(** The two fields of [Allocation] that [processThumbnail] reads. *)
Record Allocation := { DataShards : Z; ParityShards : Z }.

(** [io.MultiReader(inFile, bytes.NewBuffer(padding))]: what is left of the
    file and of the padding.  The file is a regular file: a read returns as
    many bytes as are asked for, or those that are left. *)
Record Reader := { fileLeft : bytes; paddingLeft : nat }.

(** [dataReader.Read(b1)] for a fresh [b1] of [len] zero bytes: the buffer
    afterwards and the reader, or the error.  A read of no bytes does
    nothing.  Otherwise the bytes come from the file while it has some, and
    only from the file: a read that reaches its end returns short and leaves
    the rest of [b1] as it was.  With the file used up they come from the
    padding, and with both used up the read fails with [io.EOF]. *)
Definition Read (r : Reader) (len : nat) : (bytes * Reader) + error :=
  match len with
  | O => inl ([], r)
  | S _ =>
      match fileLeft r with
      | _ :: _ =>
          let got := take len (fileLeft r) in
          inl (got ++ replicate (len - length got) Byte.x00,
               {| fileLeft := drop len (fileLeft r);
                  paddingLeft := paddingLeft r |})
      | [] =>
          match paddingLeft r with
          | O => inr "EOF"%string
          | S _ =>
              inl (replicate len Byte.x00,
                   {| fileLeft := []; paddingLeft := paddingLeft r - len |})
          end
      end
  end.

Section ProcessThumbnail.
Context `{Deps}.
(** [fileref.CHUNK_SIZE], a constant of a package that is not among the
    sources. *)
Variable CHUNK_SIZE : Z.

(** Line 51: the bytes per shard. *)
Definition perShardOf (size D : Z) : Z :=
  wrap64 (Z.quot (wrap64 (wrap64 (size + D) - 1)) D).

(** Line 53: the length of the padding ([make] also panics on a length that
    is out of range for being too large, which is left aside). *)
Definition paddingOf (size D : Z) : Z :=
  wrap64 (wrap64 (D * perShardOf size D) - size).

(** Line 55: the chunks per shard. *)
Definition chunksPerShardOf (size D : Z) : Z :=
  wrap64 (Z.quot (wrap64 (wrap64 (perShardOf size D + CHUNK_SIZE) - 1))
            CHUNK_SIZE).

(** Line 60: the bytes per shard of chunk [ctr]. *)
Definition remainingAt (size D ctr : Z) : Z :=
  minViaFloat64 (wrap64 (perShardOf size D - wrap64 (ctr * CHUNK_SIZE)))
    CHUNK_SIZE.

(** The loop of lines 59-71 over the values of [ctr]: [inl] when it runs to
    its end, [inr] when the function returns from inside it. *)
Fixpoint chunkLoop (a : Allocation) (size : Z) (ctrs : list Z)
    (req : UploadRequest) (r : Reader)
  : outcome ((UploadRequest * Reader) + UploadRequest) :=
  match ctrs with
  | [] => Done (inl (req, r))
  | ctr :: rest =>
      let remaining := remainingAt size (DataShards a) ctr in
      let len := wrap64 (remaining * DataShards a) in
      if len <? 0 then Panic (inr req) (* make: len out of range *)
      else
        match Read r (Z.to_nat len) with
        | inr _ => Done (inr req)
        | inl (b1, r') =>
            match pushThumbnailData req b1 with
            | Done (req', Some _) => Done (inr req')
            | Done (req', None) => chunkLoop a size rest req' r'
            | Panic (req', _) => Panic (inr req')
            | OutOfFuel => OutOfFuel
            end
        end
  end.

(** [processThumbnail].  [opened] is what [os.Open(req.thumbnailpath)] gives,
    the content of the file or an error, and [wg] counts the calls of
    [wg.Done()]; the deferred call runs on every way out. *)
Definition processThumbnail (a : Allocation) (opened : bytes + error)
    (req : UploadRequest) (wg : nat) : outcome (UploadRequest * nat) :=
  match opened with
  | inr _ => Done (req, S wg)
  | inl inFile =>
      let size := ThumbnailSize (filemeta req) in
      let D := DataShards a in
      if D =? 0 then Panic (req, S wg) (* integer divide by zero *)
      else if paddingOf size D <? 0 then Panic (req, S wg) (* make *)
      else if CHUNK_SIZE =? 0 then Panic (req, S wg)
      else
        let dataReader :=
          {| fileLeft := inFile; paddingLeft := Z.to_nat (paddingOf size D) |} in
        match chunkLoop a size (seqZ 0 (chunksPerShardOf size D)) req dataReader with
        | Done (inr req') => Done (req', S wg)
        | Done (inl (req', _)) =>
            match completeThumbnailPush req' with
            | Done (req'', _) => Done (req'', S wg)
            | Panic (req'', _) => Panic (req'', S wg)
            | OutOfFuel => OutOfFuel
            end
        | Panic (inr req') => Panic (req', S wg)
        | Panic (inl (req', _)) => Panic (req', S wg)
        | OutOfFuel => OutOfFuel
        end
  end.

End ProcessThumbnail.

(** The bytes [processThumbnail] is meant to push: the file, padded with
    zeros. *)
Definition paddedStream (inFile : bytes) (padding : Z) : bytes :=
  inFile ++ replicate (Z.to_nat padding) Byte.x00.

(** The fields of a request that a push never writes. *)
Definition sameSetup (req req' : UploadRequest) : Prop :=
  isRepair req' = isRepair req
  ∧ datashards req' = datashards req
  ∧ parityshards req' = parityshards req
  ∧ uploadMask req' = uploadMask req
  ∧ uploadThumbCh req' = uploadThumbCh req
  ∧ ThumbnailSize (filemeta req') = ThumbnailSize (filemeta req).

(** The sizes the statements about [processThumbnail] are made for: no
    64-bit sum or product wraps, and the conversions to [float64] are exact. *)
Definition sizesInRange (size D C : Z) : Prop :=
  0 ≤ size ≤ 2 ^ 50 ∧ 0 < D ≤ 2 ^ 10 ∧ 0 < C ≤ 2 ^ 40.

(** An encoder that never fails and gives a shard for every active node. *)
Definition encoderServes `{Deps} (req : UploadRequest) : Prop :=
  ∃ enc, NewEncoder (datashards req) (parityshards req) = inl enc
         ∧ ∀ data, ∃ shards,
             Encode enc data = inl shards
             ∧ ∀ p, p ∈ setBits (uploadMask req) →
                    (Z.to_nat p < length shards)%nat.

(** The bytes of the padded stream that lie before chunk [k]. *)
Definition consumedAt (C : Z) (a : Allocation) (req0 : UploadRequest) (k : nat)
  : nat :=
  Z.to_nat (Z.min (Z.of_nat k * C)
              (perShardOf (ThumbnailSize (filemeta req0)) (DataShards a))
            * DataShards a).

(** The request after [k] chunks of the file were pushed. *)
Definition pushedChunks (C : Z) (a : Allocation) (req0 : UploadRequest)
    (file : bytes) (k : nat) (req : UploadRequest) : Prop :=
  sameSetup req0 req
  ∧ filemeta req = filemeta req0
  ∧ thumbRemaining req
    = Z.max 0 (thumbRemaining req0 - Z.of_nat (consumedAt C a req0 k))
  ∧ thumbnailHash req
    = (if isRepair req0 then thumbnailHash req0
       else thumbnailHash req0
            ++ take (Z.to_nat (thumbRemaining req0))
                 (take (consumedAt C a req0 k)
                    (paddedStream file
                       (paddingOf (ThumbnailSize (filemeta req0)) (DataShards a)))))
  ∧ length (sent req)
    = (length (sent req0) + k * length (setBits (uploadMask req0)))%nat
  ∧ map fst (sent req)
    = map fst (sent req0)
      ++ concat (replicate k (seq 0 (length (setBits (uploadMask req0)))))
  ∧ sent req0 `prefix_of` sent req.

(** The request a loop leaves behind, on either way out. *)
Definition leftBy (x : (UploadRequest * Reader) + UploadRequest) : UploadRequest :=
  match x with
  | inl (req, _) => req
  | inr req => req
  end.

End ThumbnailFile.

(** ** The worker of a queue and the enqueue *)
Module Worker.
Import encryption blockchain Commit.

(** Lines 94-96 of [startCommitWorker]: under the mutex, the entry of
    [blobberID] is deleted from [commitChan] (deleting from a nil map does
    nothing) and the goroutine ends. *)
Definition deregister (blobberChan : nat) (blobberID : string) (p : Pool)
  : Pool :=
  {| commitChan := delete blobberID <$> commitChan p;
     nextChan := nextChan p;
     workers := filter (λ w, w ≠ (blobberChan, blobberID)) (workers p) |}.

(** How a worker ends: it returns after deregistering, it waits for ever on
    a queue that is empty and not closed, or a request makes it panic. *)
Inductive WorkerEnd : Type :=
| Exited (p : Pool)
| Waiting
| Crashed.

Section WorkerCode.
Context `{Hasher} `{Deps}.

(** The loop of [startCommitWorker] (lines 87-93) on the requests that
    arrive on the queue, each with the world its attempt meets: the requests
    as [processCommit] leaves them, with their network calls, and whether
    the loop got to the end of the queue. *)
Fixpoint workerLoop (queue : list (World * CommitRequest))
  : list (CommitRequest * list NetCall) * bool :=
  match queue with
  | [] => ([], true)
  | (w, commitreq) :: rest =>
      match processCommit w commitreq with
      | Done r => let '(rs, finished) := workerLoop rest in (r :: rs, finished)
      | Panic r => ([r], false)
      | OutOfFuel => ([], false)
      end
  end.

(** [startCommitWorker] for a queue that receives [queue] and is then closed
    ([closed = true]) or left open. *)
Definition startCommitWorker (queue : list (World * CommitRequest))
    (closed : bool) (blobberChan : nat) (blobberID : string) (p : Pool)
  : list (CommitRequest * list NetCall) * WorkerEnd :=
  match workerLoop queue with
  | (rs, false) => (rs, Crashed)
  | (rs, true) =>
      if closed then (rs, Exited (deregister blobberChan blobberID p))
      else (rs, Waiting)
  end.

End WorkerCode.

(** [AddCommitRequest]: the channel the request is sent on, [None] for the
    nil channel that indexing a map without the key (or a nil map) gives, on
    which a send waits for ever. *)
Definition AddCommitRequest (req : CommitRequest) (p : Pool) : option nat :=
  queueOf p (ID (blobber req)).

(** The registries that calls of [InitCommitWorker] and exits of workers
    lead to. *)
Inductive reachable : Pool → Prop :=
| reachable_empty : reachable emptyPool
| reachable_init p bs : reachable p → reachable (InitCommitWorker bs p)
| reachable_exit p ch id :
    reachable p → (ch, id) ∈ workers p → reachable (deregister ch id p).

End Worker.

(** *** More vocabulary of the statements about the list worker *)
Module ListingTerms.
Import encryption blockchain Listing.

Section ListingMoreVocabulary.
Context `{Hasher} `{Deps}.

(** The tree of a response the merge uses: one with no error and a tree. *)
Definition usableTree (ti : listResponse) : option fileref.Ref :=
  match err ti, ref ti with
  | None, Some root => Some root
  | _, _ => None
  end.

(** The children with identity key [k] among [cs], in order. *)
Definition agreeing (k : string) (cs : list fileref.RefEntity)
  : list fileref.RefEntity :=
  filter (λ c, actualHash c = k) cs.

(** The record that counting the children [cs], one after the other, gives
    when it starts from a fresh record for the first of them. *)
Definition accumulate (req : ListRequest) (cs : list fileref.RefEntity)
  : option ListResult :=
  match cs with
  | [] => None
  | c :: _ => Some (fold_left countChild cs (newChildResult req c))
  end.

(** The sum of 64-bit block counts or sizes, as the code adds them up. *)
Definition sum64 (l : list Z) : Z := fold_left (λ n b, wrap64 (n + b)) l 0.

(** The size a child adds to its record: files only. *)
Definition sizeOf (c : fileref.RefEntity) : Z :=
  match c with
  | fileref.FileRef _ _ _ _ size _ _ => size
  | fileref.DirRef _ _ _ _ _ => 0
  end.

(** What one node contributes to the merge: its tree, when the request could
    be built, the node answered with status 200 and the body decoded to a
    directory tree. *)
Definition treeOf (req : ListRequest) (answers : nat → HttpReply) (i : nat)
  : option fileref.Ref :=
  match blobbers req !! i with
  | None => None
  | Some b =>
      match NewListRequest (Baseurl b) (allocationID req) (remotefilepath req) with
      | inr _ => None
      | inl _ =>
          match answers i with
          | Reply status (inl body) =>
              if status =? StatusOK then
                match UnmarshalListResult body with
                | inl (inl tree) => Some tree
                | _ => None
                end
              else None
          | _ => None
          end
      end
  end.

(** The merge step for a tree. *)
Definition mergeTree (req : ListRequest) (st : MergeState) (root : fileref.Ref)
  : MergeState :=
  mergeResponse req st
    {| ref := Some root; responseStr := ""; blobberIdx := 0; err := None |}.

End ListingMoreVocabulary.

End ListingTerms.

(** Fixtures of [processThumbnail]: the 8-byte chunk as the file, six data
    and two parity shards, and chunks of one byte per shard. *)
Module ThumbnailFileFixture.
Import Thumbnail ThumbnailFile ThumbnailFixture.

Definition allocation : Allocation := {| DataShards := 6; ParityShards := 2 |}.

Definition chunkSize : Z := 1.

(** The request of the other examples with fewer channels than the three
    active nodes. *)
Definition shortOfChannels : UploadRequest :=
  {| filemeta := {| ThumbnailSize := 8; ThumbnailHash := "" |};
     thumbRemaining := 8; isRepair := false;
     thumbnailHash := [Byte.x01];
     datashards := 6; parityshards := 2;
     uploadMask := 37; uploadThumbCh := 2; sent := [] |}.

End ThumbnailFileFixture.

(** More fixtures of the commit worker. *)
Module CommitMoreFixture.
Import encryption blockchain Commit Worker CommitFixture.


(** A node that rejects the submission. *)
Definition rejectingWorld : World :=
  {| Now := 100; refPathReply := Reply 200 (inl "fresh"%string);
     commitReply := Reply 500 (inl "invalid marker"%string) |}.

(** A node that does not know the path. *)
Definition lostWorld : World :=
  {| Now := 100; refPathReply := Reply 404 (inl "not found"%string);
     commitReply := Reply 200 (inl ""%string) |}.

(** The collaborators of the other examples, but with a [GetDirTree] that
    fails on a root that is not a directory, and a response ["fileroot"]
    that carries such a root together with a genuine marker. *)
Definition strictDeps : Deps := {|
  Request := string;
  ReferencePath := fileref.Ref;
  GetClientPublicKey := "pk";
  GetClientID := "client";
  VerifySignature wm key :=
    if String.eqb (Signature wm) (signatureOf wm) then None
    else Some "signature_mismatch"%string;
  Sign wm := inl (signatureOf wm);
  CalculateHash t := t;
  GetDirTree rp alloc :=
    if String.eqb (fileref.Type_ rp) fileref.DIRECTORY then inl rp
    else inr "invalid_ref_path"%string;
  UnmarshalReferencePath body :=
    if String.eqb body "fileroot"
    then inl ({| fileref.Type_ := fileref.FILE; fileref.Name := "a";
                 fileref.Path := "/a"; fileref.Hash := "r1";
                 fileref.NumBlocks := 0; fileref.Children := [] |},
              Some marker1)
    else inr "invalid character"%string;
  MarshalWriteMarker wm := inl (AllocationRoot wm);
  NewReferencePathRequest base alloc path :=
    inl (base +:+ "/referencepath/" +:+ alloc +:+ "?path=" +:+ path);
  NewCommitRequest base alloc body := inl (base +:+ "/commit/" +:+ alloc);
  NewError code msg := code +:+ ": " +:+ msg;
|}.

(** The reference-path request of the examples. *)
Definition fetchRequest : @Request deps :=
  "http://b1/referencepath/alloc?path=/a"%string.

(** The submission of a marker to the node of the examples. *)
Definition submitCall (wm : WriteMarker) : NetCall :=
  @CallCommit deps "http://b1/commit/alloc"%string wm.

(** The registry after two nodes were registered. *)
Definition twoNodes : Pool :=
  InitCommitWorker [fixtureNode "b1"; fixtureNode "b2"] emptyPool.

End CommitMoreFixture.

(** More fixtures of the list worker. *)
Module ListingMoreFixture.
Import encryption blockchain Listing ListingFixture.

(** The response of a node whose query failed. *)
Definition failed (i : nat) : listResponse :=
  {| ref := Some emptyRef; responseStr := ""; blobberIdx := i;
     err := Some "timeout"%string |}.

(** One node lists [/a], the other fails. *)
Definition oneAnswer : list listResponse := [ok 0 [fileA "h1"]; failed 1].

End ListingMoreFixture.

(** * Proofs *)

(** ** Bit-level facts about the mask loop *)
Section MaskBits.

Lemma word32_of_range i : 0 ≤ i < 2 ^ 32 → word32 i.
Proof.
  intros [Hlo Hhi]. split; [done|]. intros q Hq.
  destruct (decide (i = 0)) as [->|Hne]; [apply Z.bits_0|].
  apply Z.bits_above_log2; [done|].
  assert (Z.log2 i < 32) by (apply Z.log2_lt_pow2; lia). lia.
Qed.

Lemma tz_scan_spec n k x :
  k ≤ tz_scan n k x ≤ k + Z.of_nat n
  ∧ (∀ q, k ≤ q < tz_scan n k x → Z.testbit x q = false)
  ∧ (tz_scan n k x < k + Z.of_nat n → Z.testbit x (tz_scan n k x) = true).
Proof.
  revert k. induction n as [|n IH]; intros k; cbn [tz_scan].
  - repeat split; intros; lia.
  - destruct (Z.testbit x k) eqn:Hk.
    + repeat split; intros; try lia. done.
    + destruct (IH (k + 1)) as (Hr & Hlow & Hset).
      repeat split; try lia.
      * intros q Hq. destruct (decide (q = k)) as [->|]; [done|]. apply Hlow. lia.
      * intros Hlt. apply Hset. lia.
Qed.

Lemma TrailingZeros32_spec i :
  word32 i → i ≠ 0 →
  0 ≤ TrailingZeros32 i < 32
  ∧ Z.testbit i (TrailingZeros32 i) = true
  ∧ ∀ q, 0 ≤ q < TrailingZeros32 i → Z.testbit i q = false.
Proof.
  intros [Hnn Hhigh] Hne. unfold TrailingZeros32.
  destruct (tz_scan_spec 32 0 i) as (Hr & Hlow & Hset).
  assert (tz_scan 32 0 i < 32) as Hlt.
  { destruct (decide (tz_scan 32 0 i < 32)) as [|Hge]; [done|].
    exfalso. apply Hne. apply Z.bits_inj'. intros q Hq.
    rewrite Z.bits_0. destruct (decide (q < 32)).
    - apply Hlow. lia.
    - apply Hhigh. lia. }
  repeat split; try lia.
  - apply Hset. lia.
  - done.
Qed.

Lemma not32_pow2_testbit pos q :
  0 ≤ pos < 32 → 0 ≤ q →
  Z.testbit (not32 (Z.shiftl 1 pos mod 2 ^ 32)) q
  = xorb (pos =? q) (q <? 32).
Proof.
  intros Hpos Hq. unfold not32.
  rewrite Z.shiftl_1_l, Z.mod_small.
  2:{ split; [apply Z.pow_nonneg; lia|]. apply Z.pow_lt_mono_r; lia. }
  rewrite Z.lxor_spec, Z.pow2_bits_eqb by lia.
  change 4294967295 with (Z.ones 32).
  f_equal. destruct (Z.ltb_spec q 32).
  - apply Z.ones_spec_low. lia.
  - apply Z.ones_spec_high. lia.
Qed.

Lemma clear_bit_testbit i pos q :
  word32 i → 0 ≤ pos < 32 → 0 ≤ q →
  Z.testbit (Z.land i (not32 (Z.shiftl 1 pos mod 2 ^ 32))) q
  = Z.testbit i q && negb (q =? pos).
Proof.
  intros [_ Hhigh] Hpos Hq.
  rewrite Z.land_spec, not32_pow2_testbit by done.
  destruct (Z.ltb_spec q 32).
  - rewrite (Z.eqb_sym pos q). by destruct (q =? pos), (Z.testbit i q).
  - rewrite Hhigh by lia. done.
Qed.

Lemma clear_bit_word32 i pos :
  word32 i → 0 ≤ pos < 32 →
  word32 (Z.land i (not32 (Z.shiftl 1 pos mod 2 ^ 32))).
Proof.
  intros Hw Hpos. split.
  - apply Z.land_nonneg. left. apply Hw.
  - intros q Hq. rewrite clear_bit_testbit by (done || lia).
    destruct Hw as [_ Hhigh]. by rewrite Hhigh.
Qed.

Lemma bitsFrom_0 i : bitsFrom 0 i = setBits i.
Proof. reflexivity. Qed.

Lemma filter_agree {A} (P Q : A → Prop) `{!∀ x, Decision (P x)}
    `{!∀ x, Decision (Q x)} (l : list A) :
  (∀ x, x ∈ l → P x ↔ Q x) → filter P l = filter Q l.
Proof.
  induction l as [|a l IH]; intros Hext; [done|].
  rewrite !filter_cons.
  rewrite IH by (intros; apply Hext; by right).
  destruct (decide (P a)) as [HP|HP], (decide (Q a)) as [HQ|HQ]; try done;
    exfalso; apply (Hext a) in HP || apply (Hext a) in HQ; try done; by left.
Qed.

Lemma filter_none {A} (P : A → Prop) `{!∀ x, Decision (P x)} (l : list A) :
  (∀ x, x ∈ l → ¬ P x) → filter P l = [].
Proof.
  induction l as [|a l IH]; intros Hno; [done|].
  rewrite filter_cons_False by (apply Hno; by left).
  apply IH. intros; apply Hno; by right.
Qed.

Lemma filter_seqZ_ext (i j : Z) k n :
  (∀ q, k ≤ q < k + n → Z.testbit i q = Z.testbit j q) →
  filter (λ p, Z.testbit i p = true) (seqZ k n)
  = filter (λ p, Z.testbit j p = true) (seqZ k n).
Proof.
  intros Hext. apply filter_agree.
  intros q Hq%elem_of_seqZ. rewrite Hext by lia. done.
Qed.

Lemma filter_seqZ_clear (i : Z) k n :
  (∀ q, k ≤ q < k + n → Z.testbit i q = false) →
  filter (λ p, Z.testbit i p = true) (seqZ k n) = [].
Proof.
  intros Hclr. apply filter_none.
  intros q Hq%elem_of_seqZ. rewrite Hclr by lia. done.
Qed.

Lemma bitsFrom_zero k : bitsFrom k 0 = [].
Proof. apply filter_seqZ_clear. intros. apply Z.bits_0. Qed.

Lemma bitsFrom_step i k :
  word32 i → i ≠ 0 → 0 ≤ k →
  (∀ q, 0 ≤ q < k → Z.testbit i q = false) →
  let pos := TrailingZeros32 i in
  k ≤ pos
  ∧ bitsFrom k i
    = pos :: bitsFrom (pos + 1) (Z.land i (not32 (Z.shiftl 1 pos mod 2 ^ 32))).
Proof.
  intros Hw Hne Hk Hbelow pos.
  destruct (TrailingZeros32_spec i Hw Hne) as (Hpos & Hset & Hlow).
  fold pos in Hpos, Hset, Hlow.
  assert (k ≤ pos) as Hkp.
  { destruct (decide (k ≤ pos)); [done|]. rewrite Hbelow in Hset by lia. done. }
  split; [done|]. unfold bitsFrom.
  replace (32 - k) with ((pos - k) + (1 + (32 - (pos + 1)))) by lia.
  rewrite seqZ_app, filter_app by lia.
  rewrite filter_seqZ_clear by (intros; apply Hlow; lia). cbn [app].
  replace (k + (pos - k)) with pos by lia.
  rewrite seqZ_app, filter_app by lia.
  change (seqZ pos 1) with [pos].
  rewrite filter_cons_True, filter_nil by done. cbn [app]. f_equal.
  apply filter_seqZ_ext. intros q Hq.
  rewrite clear_bit_testbit by (done || lia).
  destruct (Z.eqb_spec q pos); [lia|]. by rewrite andb_true_r.
Qed.

Lemma setBits_spec mask p :
  p ∈ setBits mask ↔ 0 ≤ p < 32 ∧ Z.testbit mask p = true.
Proof.
  unfold setBits. rewrite list_elem_of_filter, elem_of_seqZ. intuition lia.
Qed.

Lemma StronglySorted_filter {A} (R : A → A → Prop) (P : A → Prop)
    `{!∀ x, Decision (P x)} (l : list A) :
  StronglySorted R l → StronglySorted R (filter P l).
Proof.
  induction 1 as [|a l Hs IH Hall]; [constructor|].
  rewrite filter_cons. destruct (decide (P a)); [|done].
  constructor; [done|]. apply Forall_forall. intros x Hx.
  apply list_elem_of_filter in Hx as [_ Hx].
  by eapply Forall_forall in Hall.
Qed.

Lemma seqZ_sorted k n : StronglySorted Z.lt (seqZ k n).
Proof.
  destruct (decide (0 ≤ n)) as [Hn|Hn].
  - rewrite <- (Z2Nat.id n Hn). generalize (Z.to_nat n) as m. clear.
    intros m. revert k. induction m as [|m IH]; intros k.
    + constructor.
    + replace (Z.of_nat (S m)) with (1 + Z.of_nat m) by lia.
      rewrite seqZ_app by lia. change (seqZ k 1) with [k]. cbn [app].
      constructor; [apply IH|]. apply Forall_forall.
      intros x Hx%elem_of_seqZ. lia.
  - replace (seqZ k n) with (@nil Z); [constructor|].
    unfold seqZ. replace (Z.to_nat n) with O by lia. done.
Qed.

Lemma setBits_sorted mask : StronglySorted Z.lt (setBits mask).
Proof. apply StronglySorted_filter, seqZ_sorted. Qed.

Example setBits_37 : setBits 37 = [0; 2; 5].
Proof. vm_compute. reflexivity. Qed.

Example TrailingZeros32_values :
  TrailingZeros32 36 = 2 ∧ TrailingZeros32 2147483648 = 31
  ∧ TrailingZeros32 0 = 32.
Proof. vm_compute. repeat split. Qed.

Example clear_lowest_bit_37 :
  Z.land 37 (not32 (Z.shiftl 1 (TrailingZeros32 37) mod 2 ^ 32)) = 36.
Proof. vm_compute. reflexivity. Qed.

Example hexEncodeToString_bytes :
  hexEncodeToString [Byte.x00; Byte.x1f; Byte.xa0; Byte.xff] = "001fa0ff"%string.
Proof. vm_compute. reflexivity. Qed.

End MaskBits.

(** ** The thumbnail push *)
Module ThumbnailSpec.
Import Thumbnail ThumbnailFixture.

Section ThumbnailProofs.
Context `{Deps}.

Lemma maskLoop_done fuel payload nch : ∀ i k c log vs,
  word32 i → 0 ≤ k ≤ 32 →
  (∀ q, 0 ≤ q < k → Z.testbit i q = false) →
  (Z.to_nat (32 - k) ≤ fuel)%nat →
  Forall2 (λ p v, payload p = Some v) (bitsFrom k i) vs →
  (c + length vs ≤ nch)%nat →
  maskLoop fuel payload nch i c log
  = Done (log ++ imap (λ j v, ((c + j)%nat, v)) vs).
Proof.
  induction fuel as [|fuel IH]; intros i k c log vs Hw Hk Hbelow Hfuel Hvs Hc.
  - (* no fuel: k = 32, so no bit of [i] is left *)
    assert (i = 0) as ->.
    { apply Z.bits_inj'. intros q Hq. rewrite Z.bits_0.
      destruct (decide (q < 32)); [apply Hbelow; lia | apply Hw; lia]. }
    rewrite bitsFrom_zero in Hvs. apply Forall2_nil_inv_l in Hvs as ->.
    cbn. by rewrite app_nil_r.
  - cbn [maskLoop]. destruct (Z.eqb_spec i 0) as [->|Hne].
    + rewrite bitsFrom_zero in Hvs. apply Forall2_nil_inv_l in Hvs as ->.
      cbn. by rewrite app_nil_r.
    + destruct (bitsFrom_step i k Hw Hne (proj1 Hk) Hbelow) as [Hkp Heq].
      destruct (TrailingZeros32_spec i Hw Hne) as (Hpos & Hset & Hlow).
      rewrite Heq in Hvs.
      apply Forall2_cons_inv_l in Hvs as (v & vs' & Hv & Hvs' & ->).
      cbn zeta. rewrite Hv. cbn [length] in Hc.
      destruct (Nat.ltb_spec c nch); [|lia].
      rewrite (IH _ (TrailingZeros32 i + 1) (S c) _ vs').
      * f_equal. rewrite <- app_assoc. f_equal. cbn [app imap].
        rewrite Nat.add_0_r. f_equal. apply imap_ext. intros j x _. cbn.
        f_equal. lia.
      * by apply clear_bit_word32.
      * lia.
      * intros q Hq. rewrite clear_bit_testbit by (done || lia).
        destruct (decide (q = TrailingZeros32 i)) as [->|Hqp].
        -- rewrite Z.eqb_refl. apply andb_false_r.
        -- rewrite Hlow by lia. done.
      * lia.
      * done.
      * lia.
Qed.


Lemma maskLoop_never_out_of_fuel fuel payload nch : ∀ i k c log,
  word32 i → 0 ≤ k ≤ 32 →
  (∀ q, 0 ≤ q < k → Z.testbit i q = false) →
  (Z.to_nat (32 - k) ≤ fuel)%nat →
  maskLoop fuel payload nch i c log ≠ OutOfFuel.
Proof.
  induction fuel as [|fuel IH]; intros i k c log Hw Hk Hbelow Hfuel.
  - assert (i = 0) as ->; [|done].
    apply Z.bits_inj'. intros q Hq. rewrite Z.bits_0.
    destruct (decide (q < 32)); [apply Hbelow; lia | apply Hw; lia].
  - cbn [maskLoop]. destruct (Z.eqb_spec i 0) as [->|Hne]; [done|].
    destruct (bitsFrom_step i k Hw Hne (proj1 Hk) Hbelow) as [Hkp _].
    destruct (TrailingZeros32_spec i Hw Hne) as (Hpos & Hset & Hlow).
    cbn zeta. destruct (payload _); [|done].
    destruct (c <? nch)%nat; [|done].
    apply (IH _ (TrailingZeros32 i + 1)); [by apply clear_bit_word32|lia| |lia].
    intros q Hq. rewrite clear_bit_testbit by (done || lia).
    destruct (decide (q = TrailingZeros32 i)) as [->|Hqp].
    + rewrite Z.eqb_refl. apply andb_false_r.
    + rewrite Hlow by lia. done.
Qed.

Lemma imap_replicate_seq (d : bytes) (c m : nat) :
  imap (λ j v, ((c + j)%nat, v)) (replicate m d)
  = map (λ j, (j, d)) (seq c m).
Proof.
  revert c. induction m as [|m IH]; intros c; [done|].
  cbn [replicate seq map imap]. rewrite Nat.add_0_r. f_equal.
  rewrite <- IH. apply imap_ext. intros j x _. cbn. f_equal. lia.
Qed.

Lemma maskLoop32_done payload nch mask log vs :
  0 ≤ mask < 2 ^ 32 →
  Forall2 (λ p v, payload p = Some v) (setBits mask) vs →
  (length vs ≤ nch)%nat →
  maskLoop 32 payload nch mask 0 log = Done (log ++ imap (λ c v, (c, v)) vs).
Proof.
  intros Hm Hvs Hn.
  rewrite (maskLoop_done 32 payload nch mask 0 0%nat log vs);
    [done|by apply word32_of_range|lia|intros; lia|lia|by rewrite bitsFrom_0|lia].
Qed.

(** C5. Pushing one chunk sends exactly one shard per set bit of
    [uploadMask]: the set bits are visited lowest first, the value sent for
    bit [p] is [shards[p]], it goes on the next channel of [uploadThumbCh],
    and nothing is sent for a cleared bit. *)
Theorem pushThumbnailData_one_shard_per_set_bit req data enc shards :
  0 ≤ uploadMask req < 2 ^ 32 →
  (isRepair req = false → 0 ≤ thumbRemaining req) →
  NewEncoder (datashards req) (parityshards req) = inl enc →
  Encode enc data = inl shards →
  (∀ p, p ∈ setBits (uploadMask req) → (Z.to_nat p < length shards)%nat) →
  (length (setBits (uploadMask req)) ≤ uploadThumbCh req)%nat →
  ∃ req' vs,
    pushThumbnailData req data = Done (req', None)
    ∧ sent req' = sent req ++ imap (λ c v, (c, v)) vs
    ∧ Forall2 (λ p v, shards !! Z.to_nat p = Some v) (setBits (uploadMask req)) vs
    ∧ StronglySorted Z.lt (setBits (uploadMask req))
    ∧ (∀ p, p ∈ setBits (uploadMask req)
            ↔ 0 ≤ p < 32 ∧ Z.testbit (uploadMask req) p = true).
Proof.
  intros Hmask Hrem Henc Hshards Hidx Hch.
  assert (∃ vs, Forall2 (λ p v, shards !! Z.to_nat p = Some v)
                  (setBits (uploadMask req)) vs) as [vs Hvs].
  { revert Hidx. generalize (setBits (uploadMask req)) as ps.
    induction ps as [|p ps IH]; intros Hidx; [by exists []|].
    destruct IH as [vs Hvs]; [intros; apply Hidx; by right|].
    destruct (lookup_lt_is_Some_2 shards (Z.to_nat p)) as [v Hv];
      [apply Hidx; by left|].
    exists (v :: vs). by constructor. }
  assert (length vs = length (setBits (uploadMask req))) as Hlen
    by (symmetry; by eapply Forall2_length).
  unfold pushThumbnailData.
  assert (negb (isRepair req)
          && (minViaFloat64 (thumbRemaining req) (Z.of_nat (length data)) <? 0)
          = false) as ->.
  { destruct (isRepair req) eqn:Hr; [done|]. cbn.
    apply Z.ltb_ge. unfold minViaFloat64. specialize (Hrem eq_refl). lia. }
  destruct (isRepair req) eqn:Hr; cbn [negb];
    cbn [set_thumbRemaining set_thumbnailHash datashards parityshards
         uploadThumbCh uploadMask sent];
    rewrite Henc, Hshards;
    rewrite (maskLoop32_done _ _ _ _ vs) by (done || lia);
    eexists _, vs; (split; [reflexivity|]);
    (split; [done|]); (split; [done|]);
    (split; [apply setBits_sorted|intros p; apply setBits_spec]).
Qed.

(** C6. In repair mode a push leaves the running hash as it was, and
    completion changes nothing at all: no thumbnail hash is written and no
    "done" is sent.  Outside repair mode completion stores the hex digest in
    [filemeta.ThumbnailHash] and sends one "done" on each of the channels
    0 .. m-1, where m is the number of active nodes. *)
Theorem repair_skips_hash_and_done req data :
  0 ≤ uploadMask req < 2 ^ 32 →
  (isRepair req = true →
     pushThumbnailData req data ≠ OutOfFuel
     ∧ (∀ req' e, pushThumbnailData req data = Done (req', e)
                  ∨ pushThumbnailData req data = Panic (req', e) →
                  thumbnailHash req' = thumbnailHash req)
     ∧ completeThumbnailPush req = Done (req, None))
  ∧ (isRepair req = false →
     (length (setBits (uploadMask req)) ≤ uploadThumbCh req)%nat →
     ∃ req',
       completeThumbnailPush req = Done (req', None)
       ∧ ThumbnailHash (filemeta req')
         = hexEncodeToString (Sum (thumbnailHash req))
       ∧ sent req'
         = sent req ++ map (λ c, (c, doneBytes))
                         (seq 0 (length (setBits (uploadMask req))))).
Proof.
  intros Hmask. split.
  - intros Hr. unfold pushThumbnailData, completeThumbnailPush.
    rewrite Hr. cbn [negb andb].
    cbn [set_thumbRemaining datashards parityshards uploadThumbCh uploadMask sent].
    split; [|split; [|done]].
    + destruct (NewEncoder _ _) as [enc|]; [|done].
      destruct (Encode enc data) as [shards|]; [|done].
      pose proof (maskLoop_never_out_of_fuel 32 (λ pos, shards !! Z.to_nat pos)
                    (uploadThumbCh req) (uploadMask req) 0 0%nat (sent req)
                    (word32_of_range _ Hmask)) as Hfuel.
      destruct (maskLoop _ _ _ _ _ _); try done.
      exfalso. apply Hfuel; [lia|intros; lia|lia|done].
    + intros req' e.
      destruct (NewEncoder _ _) as [enc|];
        [destruct (Encode enc data) as [shards|];
          [destruct (maskLoop _ _ _ _ _ _)|]|];
        intros [Heq|Heq]; inversion Heq; done.
  - intros Hr Hch. unfold completeThumbnailPush. rewrite Hr. cbn [negb].
    cbn [set_ThumbnailHash uploadThumbCh uploadMask sent].
    set (m := length (setBits (uploadMask req))) in *.
    rewrite (maskLoop32_done _ _ _ _ (replicate m doneBytes)).
    + eexists. split; [reflexivity|]. split; [done|].
      cbn [set_sent sent]. f_equal. apply (imap_replicate_seq _ 0%nat).
    + done.
    + subst m. generalize (setBits (uploadMask req)) as ps.
      induction ps; cbn; by constructor.
    + rewrite length_replicate. done.
Qed.

End ThumbnailProofs.

Lemma pushThumbnailData_one_shard_per_set_bit_witness :
  ∃ req',
    pushThumbnailData (fixtureRequest false) fixtureChunk = Done (req', None)
    ∧ sent req' = [(0%nat, [Byte.x10]); (1%nat, [Byte.x12]); (2%nat, [Byte.x15])].
Proof.
  assert (0 ≤ uploadMask (fixtureRequest false) < 2 ^ 32) as Hm by (cbn; lia).
  assert (isRepair (fixtureRequest false) = false
          → 0 ≤ thumbRemaining (fixtureRequest false)) as Hrem by (cbn; lia).
  assert (∀ p, p ∈ setBits (uploadMask (fixtureRequest false))
               → (Z.to_nat p < 8)%nat) as Hidx.
  { intros p Hp. change (p ∈ setBits 37) in Hp.
    replace (setBits 37) with [0; 2; 5] in Hp by (vm_compute; reflexivity).
    repeat (apply elem_of_cons in Hp as [->|Hp]); try lia.
    by apply elem_of_nil in Hp. }
  assert (length (setBits (uploadMask (fixtureRequest false)))
          ≤ uploadThumbCh (fixtureRequest false))%nat as Hch by (vm_compute; lia).
  destruct (@pushThumbnailData_one_shard_per_set_bit deps
              (fixtureRequest false) fixtureChunk 8%nat
              (map (λ j, take 1 (drop j fixtureChunk)) (seq 0 8))
              Hm Hrem eq_refl eq_refl Hidx Hch)
    as (req' & vs & Hrun & Hsent & Hvs & _).
  exists req'. split; [exact Hrun|].
  vm_compute in Hrun. inversion Hrun. reflexivity.
Defined.

Lemma repair_skips_hash_and_done_witness :
  completeThumbnailPush (fixtureRequest true) = Done (fixtureRequest true, None)
  ∧ ∃ req',
      completeThumbnailPush (fixtureRequest false) = Done (req', None)
      ∧ ThumbnailHash (filemeta req') = "01"%string
      ∧ sent req' = [(0%nat, doneBytes); (1%nat, doneBytes); (2%nat, doneBytes)].
Proof.
  assert (0 ≤ 37 < 2 ^ 32) as Hm by lia.
  split.
  - destruct (@repair_skips_hash_and_done deps
                (fixtureRequest true) fixtureChunk Hm) as [Hrep _].
    destruct (Hrep eq_refl) as (_ & _ & Hdone). exact Hdone.
  - destruct (@repair_skips_hash_and_done deps
                (fixtureRequest false) fixtureChunk Hm) as [_ Hnorm].
    destruct (Hnorm eq_refl) as (req' & Hrun & Hhash & Hsent);
      [vm_compute; lia|].
    exists req'. split; [exact Hrun|]. split; [exact Hhash|exact Hsent].
Defined.

End ThumbnailSpec.

(** ** The commit worker *)
Module CommitSpec.
Import encryption blockchain Commit CommitFixture.

Section PoolProofs.

Lemma poolInv_empty : poolInv (∅, 0%nat, []).
Proof.
  repeat split; intros *; rewrite ?lookup_empty; try done.
Qed.

Lemma registerBlobber_inv st b : poolInv st → poolInv (registerBlobber st b).
Proof.
  destruct st as [[m next] ws]. intros (Hone & Hnone & Hinj).
  unfold registerBlobber. destruct (m !! ID b) as [ch|] eqn:Hb; [done|].
  split; [|split].
  - intros id ch. rewrite lookup_insert. case_decide as Hid.
    + intros [= <-]. subst id. rewrite filter_app, (Hnone _ Hb).
      rewrite filter_cons_True by done. split; [done|lia].
    + intros Hm. destruct (Hone _ _ Hm) as [Hf Hlt].
      rewrite filter_app, Hf, filter_cons_False by (cbn; congruence).
      split; [done|lia].
  - intros id. rewrite lookup_insert. case_decide as Hid; [done|].
    intros Hm. rewrite filter_app, (Hnone _ Hm).
    rewrite filter_cons_False by (cbn; congruence). done.
  - intros id1 id2 ch. rewrite !lookup_insert.
    repeat case_decide; subst; intros H1 H2; simplify_eq; try done.
    + destruct (Hone _ _ H2) as [_ Hlt]. lia.
    + destruct (Hone _ _ H1) as [_ Hlt]. lia.
    + by eapply Hinj.
Qed.

Lemma registerBlobber_keeps st b id ch :
  st.1.1 !! id = Some ch → (registerBlobber st b).1.1 !! id = Some ch.
Proof.
  destruct st as [[m next] ws]. cbn. intros Hm. unfold registerBlobber.
  destruct (m !! ID b) eqn:Hb; [done|]. cbn.
  rewrite lookup_insert_ne; [done|]. intros <-. congruence.
Qed.

Lemma registerBlobber_dom st b id :
  is_Some ((registerBlobber st b).1.1 !! id)
  ↔ is_Some (st.1.1 !! id) ∨ id = ID b.
Proof.
  destruct st as [[m next] ws]. cbn. unfold registerBlobber.
  destruct (m !! ID b) eqn:Hb; cbn.
  - split; [by left|]. intros [?| ->]; [done|]. by rewrite Hb.
  - rewrite lookup_insert. case_decide; subst.
    + split; [by right|done].
    + split; [by left|]. by intros [?|?].
Qed.

Lemma registerBlobber_known st b :
  is_Some (st.1.1 !! ID b) → registerBlobber st b = st.
Proof.
  destruct st as [[m next] ws]. cbn. intros [ch Hm].
  unfold registerBlobber. by rewrite Hm.
Qed.

Lemma fold_register_inv bs : ∀ st,
  poolInv st → poolInv (fold_left registerBlobber bs st).
Proof.
  induction bs as [|b bs IH]; intros st Hst; [done|].
  cbn. by apply IH, registerBlobber_inv.
Qed.

Lemma fold_register_keeps bs : ∀ st id ch,
  st.1.1 !! id = Some ch →
  (fold_left registerBlobber bs st).1.1 !! id = Some ch.
Proof.
  induction bs as [|b bs IH]; intros st id ch Hm; [done|].
  cbn. by apply IH, registerBlobber_keeps.
Qed.

Lemma fold_register_dom bs : ∀ st id,
  is_Some ((fold_left registerBlobber bs st).1.1 !! id)
  ↔ is_Some (st.1.1 !! id) ∨ ∃ b, b ∈ bs ∧ ID b = id.
Proof.
  induction bs as [|b bs IH]; intros st id; cbn.
  - split; [by left|]. intros [?|(b & Hb & _)]; [done|]. by apply elem_of_nil in Hb.
  - rewrite IH, registerBlobber_dom. split.
    + intros [[?| ->]|(b' & Hb' & Hid)]; [by left| |].
      * right. exists b. split; [by left|done].
      * right. exists b'. split; [by right|done].
    + intros [?|(b' & Hb' & Hid)]; [by left; left|].
      apply elem_of_cons in Hb' as [->|Hb'].
      * left. by right.
      * right. by exists b'.
Qed.

Lemma fold_register_known bs : ∀ st,
  (∀ b, b ∈ bs → is_Some (st.1.1 !! ID b)) →
  fold_left registerBlobber bs st = st.
Proof.
  induction bs as [|b bs IH]; intros st Hknown; [done|].
  cbn. rewrite registerBlobber_known by (apply Hknown; by left).
  apply IH. intros; apply Hknown; by right.
Qed.

Lemma queueOf_loopState p id : queueOf p id = (loopState p).1.1 !! id.
Proof. unfold queueOf, loopState. by destruct (commitChan p). Qed.

Lemma loopState_Init bs p :
  loopState (InitCommitWorker bs p) = fold_left registerBlobber bs (loopState p).
Proof.
  unfold InitCommitWorker, loopState at 1.
  fold (loopState p). by destruct (fold_left _ _ _) as [[m next] ws].
Qed.

Lemma initAll_inv calls : ∀ p,
  poolInv (loopState p) → poolInv (loopState (initAll calls p)).
Proof.
  induction calls as [|bs calls IH]; intros p Hp; [done|].
  cbn. apply IH. rewrite loopState_Init. by apply fold_register_inv.
Qed.

Lemma initAll_dom calls : ∀ p id,
  is_Some (queueOf (initAll calls p) id)
  ↔ is_Some (queueOf p id) ∨ ∃ bs b, bs ∈ calls ∧ b ∈ bs ∧ ID b = id.
Proof.
  induction calls as [|bs calls IH]; intros p id; cbn.
  - split; [by left|]. intros [?|(bs & b & Hbs & _)]; [done|].
    by apply elem_of_nil in Hbs.
  - rewrite IH. rewrite !queueOf_loopState, loopState_Init, fold_register_dom.
    split.
    + intros [[?|(b & Hb & Hid)]|(bs' & b & Hbs & Hb & Hid)]; [by left| |].
      * right. exists bs, b. split; [by left|done].
      * right. exists bs', b. split; [by right|done].
    + intros [?|(bs' & b & Hbs & Hb & Hid)]; [by left; left|].
      apply elem_of_cons in Hbs as [->|Hbs].
      * left. right. by exists b.
      * right. by exists bs', b.
Qed.

(** C3. After any series of calls of [InitCommitWorker] on the empty pool,
    the ids with a queue are exactly the ids supplied, each of them has one
    worker and that worker serves the registered queue, no queue is shared by
    two ids, and one more call keeps every queue that is already registered:
    for known ids it starts no worker and changes no queue. *)
Theorem InitCommitWorker_idempotent (calls : list (list StorageNode)) :
  let p := initAll calls emptyPool in
  (∀ id, is_Some (queueOf p id) ↔ ∃ bs b, bs ∈ calls ∧ b ∈ bs ∧ ID b = id)
  ∧ (∀ id ch, queueOf p id = Some ch → workersOf p id = [(ch, id)])
  ∧ (∀ id, queueOf p id = None → workersOf p id = [])
  ∧ (∀ id1 id2 ch, queueOf p id1 = Some ch → queueOf p id2 = Some ch → id1 = id2)
  ∧ (∀ bs id ch, queueOf p id = Some ch →
       queueOf (InitCommitWorker bs p) id = Some ch
       ∧ workersOf (InitCommitWorker bs p) id = [(ch, id)])
  ∧ (∀ bs, (∀ b, b ∈ bs → is_Some (queueOf p (ID b))) →
       workers (InitCommitWorker bs p) = workers p
       ∧ nextChan (InitCommitWorker bs p) = nextChan p
       ∧ ∀ id, queueOf (InitCommitWorker bs p) id = queueOf p id).
Proof.
  intros p.
  assert (poolInv (loopState p)) as Hinv
    by (apply initAll_inv, poolInv_empty).
  assert (∀ bs, poolInv (loopState (InitCommitWorker bs p))) as Hinv'.
  { intros bs. rewrite loopState_Init. by apply fold_register_inv. }
  assert (∀ q, poolInv (loopState q) → ∀ id ch,
            queueOf q id = Some ch → workersOf q id = [(ch, id)]) as Hone.
  { intros q Hq id ch. rewrite queueOf_loopState. unfold workersOf.
    unfold poolInv, loopState in *. destruct Hq as (Hq & _). cbn.
    intros Hm. by destruct (Hq _ _ Hm). }
  split; [|split; [|split; [|split; [|split]]]].
  - intros id. unfold p. rewrite initAll_dom. split.
    + intros [[? Hq]|?]; [done|done].
    + by right.
  - by apply Hone.
  - intros id. rewrite queueOf_loopState. unfold workersOf.
    unfold poolInv, loopState in Hinv. destruct Hinv as (_ & Hnone & _).
    apply Hnone.
  - intros id1 id2 ch. rewrite !queueOf_loopState.
    unfold poolInv, loopState in Hinv. destruct Hinv as (_ & _ & Hinj).
    apply Hinj.
  - intros bs id ch Hq.
    assert (queueOf (InitCommitWorker bs p) id = Some ch) as Hq'.
    { rewrite queueOf_loopState, loopState_Init.
      apply fold_register_keeps. by rewrite <- queueOf_loopState. }
    split; [done|]. by apply Hone.
  - intros bs Hknown.
    assert (loopState (InitCommitWorker bs p) = loopState p) as Heq.
    { rewrite loopState_Init. apply fold_register_known.
      intros b Hb. rewrite <- queueOf_loopState. by apply Hknown. }
    split; [|split].
    + by injection Heq.
    + by injection Heq.
    + intros id. by rewrite !queueOf_loopState, Heq.
Qed.

Example init_twice_same_nodes :
  let p := InitCommitWorker [fixtureNode "b1"; fixtureNode "b2"] emptyPool in
  workers p = [(0%nat, "b1"%string); (1%nat, "b2"%string)]
  ∧ queueOf p "b1" = Some 0%nat ∧ queueOf p "b2" = Some 1%nat
  ∧ InitCommitWorker [fixtureNode "b2"; fixtureNode "b1"; fixtureNode "b2"] p
    = p.
Proof. vm_compute. repeat split. Qed.

End PoolProofs.

Section CommitProofs.
Context `{Hasher} `{Deps}.

Lemma applyChanges_size cs : ∀ t s t' s',
  applyChanges cs t s = (t', None, s') →
  s' = fold_left (λ size change, wrap64 (size + GetSize change)) cs s.
Proof.
  induction cs as [|c cs IH]; intros t s t' s' Happ; cbn in *.
  - by injection Happ.
  - destruct (ProcessChange c t) as [t1 [e|]]; [done|]. by eapply IH.
Qed.

Lemma applyChanges_app pre : ∀ rest t s t1 s1,
  applyChanges pre t s = (t1, None, s1) →
  applyChanges (pre ++ rest) t s = applyChanges rest t1 s1.
Proof.
  induction pre as [|c pre IH]; intros rest t s t1 s1 Hpre; cbn in *.
  - by injection Hpre as -> ->.
  - destruct (ProcessChange c t) as [t' [e|]]; [done|]. by apply IH.
Qed.

Lemma String_eqb_false (a b : string) : String.eqb a b = false ↔ a ≠ b.
Proof. destruct (String.eqb_spec a b); split; congruence. Qed.

Lemma processCommit_apply w commitreq httpreq lR rootRef :
  NewReferencePathRequest (Baseurl (blobber commitreq))
    (allocationID commitreq) (affectedPath (changes commitreq)) = inl httpreq →
  affectedPath (changes commitreq) ≠ ""%string →
  refPathCallback (refPathReply w) = inl lR →
  treeInHand (allocationID commitreq) lR rootRef →
  processCommit w commitreq
  = applyAndCommit w commitreq (LatestWM lR) rootRef [CallReferencePath httpreq].
Proof.
  intros Hreq Hpath HlR Htree. unfold processCommit. rewrite Hreq.
  destruct (affectedPath (changes commitreq)) as [|a s] eqn:Hp; [done|].
  cbn [String.length Nat.eqb]. rewrite HlR. unfold treeInHand in Htree.
  destruct (LatestWM lR) as [prior|].
  - destruct Htree as (Hsig & t & Ht & -> & Hroot).
    rewrite Hsig, Ht. cbn zeta. rewrite Hroot, String.eqb_refl. done.
  - by rewrite Htree.
Qed.




(** C2, as the code has it. When the node reports a marker whose signature
    verifies and the value recomputed from the fetched tree differs from its
    allocation root, the attempt ends with the mismatch message in the result
    slot and the completion signalled, and the reference-path fetch is the
    only network call: nothing is submitted. *)
Theorem chain_mismatch_aborts_before_submit w commitreq httpreq lR prior t :
  NewReferencePathRequest (Baseurl (blobber commitreq))
    (allocationID commitreq) (affectedPath (changes commitreq)) = inl httpreq →
  affectedPath (changes commitreq) ≠ ""%string →
  refPathCallback (refPathReply w) = inl lR →
  LatestWM lR = Some prior →
  VerifySignature prior GetClientPublicKey = None →
  GetDirTree (refPath lR) (allocationID commitreq) = inl t →
  expectedRoot t prior ≠ AllocationRoot prior →
  processCommit w commitreq
  = Done (finish commitreq (ErrorCommitResult mismatchMessage),
          [CallReferencePath httpreq]).
Proof.
  intros Hreq Hpath HlR Hprior Hsig Ht Hne. unfold processCommit.
  rewrite Hreq.
  destruct (affectedPath (changes commitreq)) as [|a s] eqn:Hp; [done|].
  cbn [String.length Nat.eqb]. rewrite HlR, Hprior, Hsig, Ht. cbn zeta.
  apply String_eqb_false in Hne. unfold expectedRoot in Hne. by rewrite Hne.
Qed.

(** C4. The changes are applied in order while adding up their sizes; at the
    first change that fails the attempt ends with that error in the result
    slot, whatever follows it in the batch is not applied, and nothing is
    submitted: the fetch stays the only network call. *)
Theorem first_failing_change_aborts w commitreq httpreq lR rootRef
    pre change post tree size tree' e :
  NewReferencePathRequest (Baseurl (blobber commitreq))
    (allocationID commitreq) (affectedPath (changes commitreq)) = inl httpreq →
  affectedPath (changes commitreq) ≠ ""%string →
  refPathCallback (refPathReply w) = inl lR →
  treeInHand (allocationID commitreq) lR rootRef →
  changes commitreq = pre ++ change :: post →
  applyChanges pre rootRef 0 = (tree, None, size) →
  ProcessChange change tree = (tree', Some e) →
  size = sumSizes pre
  ∧ (∀ post', applyChanges (pre ++ change :: post') rootRef 0
              = (tree', Some e, size))
  ∧ processCommit w commitreq
    = Done (finish commitreq (ErrorCommitResult e), [CallReferencePath httpreq]).
Proof.
  intros Hreq Hpath HlR Htree Hcs Hpre Hfail.
  assert (∀ post', applyChanges (pre ++ change :: post') rootRef 0
                   = (tree', Some e, size)) as Hstop.
  { intros post'. rewrite (applyChanges_app _ _ _ _ _ _ Hpre). cbn.
    by rewrite Hfail. }
  split; [by apply applyChanges_size in Hpre|]. split; [done|].
  rewrite (processCommit_apply _ _ _ _ _ Hreq Hpath HlR Htree).
  unfold applyAndCommit. by rewrite Hcs, Hstop.
Qed.

(** C10. With an empty batch, or when the reference-path request cannot be
    built, [processCommit] returns with the request as it was: no result is
    stored and [wg.Done()] is not called.  On every other path that returns,
    a result is stored and [wg.Done()] is called once. *)
Theorem processCommit_silent_early_return w commitreq :
  (changes commitreq = []
   ∨ (∃ e, NewReferencePathRequest (Baseurl (blobber commitreq))
             (allocationID commitreq) (affectedPath (changes commitreq))
           = inr e) →
   processCommit w commitreq = Done (commitreq, []))
  ∧ (∀ httpreq req' calls,
       NewReferencePathRequest (Baseurl (blobber commitreq))
         (allocationID commitreq) (affectedPath (changes commitreq))
       = inl httpreq →
       affectedPath (changes commitreq) ≠ ""%string →
       processCommit w commitreq = Done (req', calls) →
       ∃ r, req' = finish commitreq r
            ∧ result req' = Some r
            ∧ wg req' = S (wg commitreq)
            ∧ (r = SuccessCommitResult ∨ ∃ msg, r = ErrorCommitResult msg)).
Proof.
  split.
  - intros [Hnil|[e He]]; unfold processCommit.
    + rewrite Hnil. cbn. by destruct (NewReferencePathRequest _ _ _).
    + by rewrite He.
  - intros httpreq req' calls Hreq Hpath. unfold processCommit. rewrite Hreq.
    destruct (affectedPath (changes commitreq)) as [|a s] eqn:Hp; [done|].
    cbn [String.length Nat.eqb].
    assert (∀ latestWM rootRef cs,
              applyAndCommit w commitreq latestWM rootRef cs = Done (req', calls) →
              ∃ r, req' = finish commitreq r
                   ∧ result req' = Some r
                   ∧ wg req' = S (wg commitreq)
                   ∧ (r = SuccessCommitResult ∨ ∃ msg, r = ErrorCommitResult msg))
      as Hstep.
    { intros latestWM rootRef cs. unfold applyAndCommit.
      destruct (applyChanges _ _ _) as [[mutated [e|]] size].
      - intros [= <- <-]. eexists. repeat split. right. by eexists.
      - destruct (commitBlobber _ _ _ _ _) as [[e|] calls'];
          intros [= <- <-]; eexists; repeat split; [right; by eexists|by left]. }
    destruct (refPathCallback _) as [lR|e].
    2:{ intros [= <- <-]. eexists. repeat split. right. by eexists. }
    destruct (LatestWM lR) as [prior|].
    + destruct (VerifySignature _ _).
      { intros [= <- <-]. eexists. repeat split. right. by eexists. }
      destruct (GetDirTree _ _) as [t|]; [|done]. cbn zeta.
      destruct (negb _).
      { intros [= <- <-]. eexists. repeat split. right. by eexists. }
      apply Hstep.
    + destruct (GetDirTree _ _) as [t|].
      * apply Hstep.
      * intros [= <- <-]. eexists. repeat split. right. by eexists.
Qed.

End CommitProofs.




(** C2 as the claim words it fails on the code: a prior marker exists and
    the recomputed value differs from its allocation root, yet the result is
    the signature error, not the mismatch, and a network call, the fetch,
    has been made. *)
Lemma chain_mismatch_claim_counterexample :
  (∃ lR, refPathCallback (refPathReply (world 200 "tampered")) = inl lR
         ∧ LatestWM lR = Some tamperedMarker
         ∧ expectedRoot (refPath lR) tamperedMarker
           ≠ AllocationRoot tamperedMarker)
  ∧ processCommit (world 200 "tampered") (request [setHash "r2" 3])
    = Done (finish (request [setHash "r2" 3])
              (ErrorCommitResult "signature_mismatch"), [fetchCall])
  ∧ ErrorCommitResult "signature_mismatch" ≠ ErrorCommitResult mismatchMessage
  ∧ [fetchCall] ≠ [].
Proof.
  split; [|split; [|split]].
  - eexists. split; [vm_compute; reflexivity|]. split; [reflexivity|].
    vm_compute. discriminate.
  - vm_compute. reflexivity.
  - discriminate.
  - discriminate.
Qed.

Lemma chain_mismatch_aborts_before_submit_witness :
  processCommit (world 200 "stale") (request [setHash "r2" 3])
  = Done (finish (request [setHash "r2" 3]) (ErrorCommitResult mismatchMessage),
          [fetchCall]).
Proof.
  refine (chain_mismatch_aborts_before_submit
            (world 200 "stale") (request [setHash "r2" 3])
            ("http://b1/referencepath/alloc?path=/a"%string : Request)
            {| refPath := tree "r1"; LatestWM := Some staleMarker |}
            staleMarker (tree "r1")
            eq_refl _ eq_refl eq_refl eq_refl eq_refl _).
  - vm_compute. discriminate.
  - vm_compute. discriminate.
Defined.

Lemma first_failing_change_aborts_witness :
  processCommit (world 200 "fresh")
    (request [setHash "r1" 10; failing "r2"; setHash "r3" 1])
  = Done (finish (request [setHash "r1" 10; failing "r2"; setHash "r3" 1])
            (ErrorCommitResult "invalid_reference_path"), [fetchCall]).
Proof.
  refine (proj2 (proj2 (first_failing_change_aborts
            (world 200 "fresh")
            (request [setHash "r1" 10; failing "r2"; setHash "r3" 1])
            ("http://b1/referencepath/alloc?path=/a"%string : Request)
            {| refPath := tree "r0"; LatestWM := None |} (tree "r0")
            [setHash "r1" 10] (failing "r2") [setHash "r3" 1]
            (tree "r1") 10 (tree "r2") "invalid_reference_path"%string
            eq_refl _ eq_refl eq_refl eq_refl eq_refl eq_refl))).
  vm_compute. discriminate.
Defined.

Lemma processCommit_silent_early_return_witness :
  processCommit (world 200 "fresh") (request []) = Done (request [], []).
Proof.
  apply (proj1 (processCommit_silent_early_return
                  (world 200 "fresh") (request []))).
  left. reflexivity.
Defined.

End CommitSpec.

(** ** The list worker *)
Module ListingSpec.
Import encryption blockchain Listing ListingFixture.

Section ListingProofs.
Context `{Hasher} `{Deps}.










End ListingProofs.

Section FanIn.
Context `{Hasher} `{Deps}.

Lemma getListInfoFromBlobber_once req b i answer cap st :
  (length (rspCh st) < cap)%nat →
  ∃ r, getListInfoFromBlobber req b i answer cap st
       = Some {| rspCh := rspCh st ++ [r]; dones := S (dones st) |}
       ∧ blobberIdx r = i.
Proof.
  intros Hroom.
  assert (∀ t s e, ∃ r, returning cap i t s e st
                        = Some {| rspCh := rspCh st ++ [r]; dones := S (dones st) |}
                        ∧ blobberIdx r = i) as Hret.
  { intros t s e. unfold returning, send.
    destruct (Nat.ltb_spec (length (rspCh st)) cap); [|exfalso; lia].
    by eexists. }
  unfold getListInfoFromBlobber.
  destruct (NewListRequest _ _ _); [|apply Hret].
  destruct (listCallback answer) as [[s [t|]] e]; apply Hret.
Qed.

Lemma runTasks_all req answers cap schedule : ∀ st,
  (∀ i, i ∈ schedule → (i < length (blobbers req))%nat) →
  (length (rspCh st) + length schedule ≤ cap)%nat →
  ∃ infos,
    runTasks req answers cap schedule st
    = Some {| rspCh := rspCh st ++ infos;
              dones := (dones st + length schedule)%nat |}
    ∧ map blobberIdx infos = schedule.
Proof.
  induction schedule as [|i schedule IH]; intros st Hlt Hcap.
  - exists []. cbn. rewrite app_nil_r, Nat.add_0_r. by destruct st.
  - cbn [runTasks]. cbn [length] in Hcap.
    destruct (lookup_lt_is_Some_2 (blobbers req) i) as [b Hb];
      [apply Hlt; by left|].
    rewrite Hb.
    destruct (getListInfoFromBlobber_once req b i (answers i) cap st)
      as (r & -> & Hr); [lia|].
    destruct (IH {| rspCh := rspCh st ++ [r]; dones := S (dones st) |})
      as (infos & Hrun & Hidx).
    + intros j Hj. apply Hlt. by right.
    + cbn. rewrite length_app. cbn. lia.
    + exists (r :: infos). rewrite Hrun. cbn [rspCh dones]. split.
      * f_equal. f_equal; [by rewrite <- app_assoc|cbn; lia].
      * cbn. by rewrite Hr, Hidx.
Qed.

(** C9. On every path through its body a list task sends one response,
    which carries the index of its node, and calls [Done] once; so whatever
    the order in which the tasks finish, the fan-in returns, with one
    response per node of the request. *)
Theorem one_response_per_dispatched_task req answers schedule :
  schedule ≡ₚ seq 0 (length (blobbers req)) →
  (∀ b i answer cap st, (length (rspCh st) < cap)%nat →
     ∃ r, getListInfoFromBlobber req b i answer cap st
          = Some {| rspCh := rspCh st ++ [r]; dones := S (dones st) |}
          ∧ blobberIdx r = i)
  ∧ ∃ infos,
      getlistFromBlobbers req answers schedule = Some infos
      ∧ length infos = length (blobbers req)
      ∧ map blobberIdx infos = schedule
      ∧ map blobberIdx infos ≡ₚ seq 0 (length (blobbers req)).
Proof.
  intros Hperm. split; [intros; by apply getListInfoFromBlobber_once|].
  assert (length schedule = length (blobbers req)) as Hlen
    by (rewrite Hperm; apply length_seq).
  destruct (runTasks_all req answers (length (blobbers req)) schedule
              {| rspCh := []; dones := 0 |})
    as (infos & Hrun & Hidx).
  - intros i Hi. rewrite Hperm in Hi. apply elem_of_seq in Hi. lia.
  - cbn. lia.
  - assert (length infos = length (blobbers req)) as Hinfos
      by (rewrite <- Hlen, <- Hidx; by rewrite length_map).
    exists infos. unfold getlistFromBlobbers. rewrite Hrun.
    cbn [app rspCh dones].
    rewrite Nat.add_0_l, Hlen, Nat.ltb_irrefl, Hinfos, Nat.ltb_irrefl.
    rewrite take_ge by lia. split; [done|]. split; [done|].
    split; [done|]. by rewrite Hidx.
Qed.

End FanIn.

Lemma one_response_per_dispatched_task_witness :
  ∃ infos,
    getlistFromBlobbers (request 75) answers [2; 0; 3; 1]%nat = Some infos
    ∧ map blobberIdx infos = [2; 0; 3; 1]%nat
    ∧ map err infos
      = [Some "error from server list response: oops"%string; None;
         Some "timeout"%string; None].
Proof.
  assert ([2; 0; 3; 1]%nat ≡ₚ seq 0 (length (blobbers (request 75)))) as Hperm.
  { cbn. apply (Permutation_trans (l' := [0; 2; 3; 1]%nat)); [apply perm_swap|].
    constructor.
    apply (Permutation_trans (l' := [2; 1; 3]%nat)); [constructor; apply perm_swap|].
    apply perm_swap. }
  destruct (one_response_per_dispatched_task (request 75) answers _ Hperm)
    as [_ (infos & Hrun & _ & Hidx & _)].
  exists infos. split; [exact Hrun|]. split; [exact Hidx|].
  vm_compute in Hrun. injection Hrun as <-. reflexivity.
Defined.

(** C7 fails on the code.  Three of four nodes report the file [/a], of two
    blocks on each; it is promoted at the third response with six blocks.
    The blocks of the promoted children are added to the root at the end of
    every response, so the fourth response adds the six once more. *)
Theorem NumBlocks_is_recounted_per_response :
  let st := mergeResponses (request 75) threeAgree in
  map NumBlocks (promoted st) = [6]
  ∧ NumBlocks (result st) = 12.
Proof. vm_compute. split; reflexivity. Qed.


(** Where two children of different paths share an identity key, which the
    statement above leaves aside, the one record they share is appended once
    for each path. *)
Example shared_key_is_appended_per_path :
  let st := mergeResponses (request 25) sharedKey in
  actualHash (fileref.DirRef "a:b" "/a:b" "" 1 [])
  = actualHash (fileref.FileRef "a" "/a" "" 1 5 "b" "text/plain")
  ∧ Children (result st) = ["H(/a:b)"; "H(/a:b)"]%string.
Proof. vm_compute. split; reflexivity. Qed.


End ListingSpec.

(** * Proofs about the rest of the three files *)

Lemma wrap64_range z : - 2 ^ 63 ≤ wrap64 z < 2 ^ 63.
Proof.
  unfold wrap64. pose proof (Z.mod_pos_bound (z + 2 ^ 63) (2 ^ 64)). lia.
Qed.

Lemma wrap64_small z : - 2 ^ 63 ≤ z < 2 ^ 63 → wrap64 z = z.
Proof. intros Hz. unfold wrap64. rewrite Z.mod_small; lia. Qed.


Lemma filter_all {A} (P : A → Prop) `{!∀ x, Decision (P x)} (l : list A) :
  (∀ x, x ∈ l → P x) → filter P l = l.
Proof.
  induction l as [|a l IH]; intros Hall; [done|].
  rewrite filter_cons_True by (apply Hall; by left).
  f_equal. apply IH. intros; apply Hall; by right.
Qed.


(** ** More on the thumbnail push *)
Module ThumbnailMore.
Import Thumbnail ThumbnailFile ThumbnailFixture ThumbnailFileFixture.

Section Plan.
Variable C : Z.

Lemma perShardOf_spec size D :
  sizesInRange size D C →
  perShardOf size D = (size + D - 1) / D
  ∧ 0 ≤ D * perShardOf size D - size < D
  ∧ 0 ≤ perShardOf size D ≤ size.
Proof.
  intros (Hs & HD & _). unfold perShardOf.
  rewrite (wrap64_small (size + D)), (wrap64_small (size + D - 1)) by lia.
  rewrite Z.quot_div_nonneg by lia.
  assert (0 ≤ (size + D - 1) / D ≤ size) as Hq.
  { split; [apply Z.div_pos; lia|].
    destruct (decide (size = 0)) as [->|].
    - rewrite Z.div_small; lia.
    - apply Z.div_le_upper_bound; nia. }
  rewrite wrap64_small by lia. split; [done|]. split; [|done].
  pose proof (Z.div_mod (size + D - 1) D).
  pose proof (Z.mod_pos_bound (size + D - 1) D). lia.
Qed.

Lemma paddingOf_spec size D :
  sizesInRange size D C →
  paddingOf size D = D * perShardOf size D - size
  ∧ 0 ≤ paddingOf size D < D.
Proof.
  intros Hr. destruct (perShardOf_spec size D Hr) as (_ & Hpad & HP).
  destruct Hr as (Hs & HD & _). unfold paddingOf.
  rewrite (wrap64_small (D * _)) by nia. rewrite wrap64_small by lia. lia.
Qed.

Lemma chunksPerShardOf_spec size D :
  sizesInRange size D C →
  let P := perShardOf size D in
  let N := chunksPerShardOf C size D in
  N = (P + C - 1) / C
  ∧ 0 ≤ N ≤ P
  ∧ P ≤ N * C
  ∧ (0 < N → (N - 1) * C < P).
Proof.
  intros Hr. destruct (perShardOf_spec size D Hr) as (_ & _ & HP).
  destruct Hr as (Hs & HD & HC). cbn zeta. unfold chunksPerShardOf.
  set (P := perShardOf size D) in *.
  rewrite (wrap64_small (P + C)), (wrap64_small (P + C - 1)) by lia.
  rewrite Z.quot_div_nonneg by lia.
  assert (0 ≤ (P + C - 1) / C ≤ P) as Hq.
  { split; [apply Z.div_pos; lia|].
    destruct (decide (P = 0)) as [->|].
    - rewrite Z.div_small; lia.
    - apply Z.div_le_upper_bound; nia. }
  rewrite wrap64_small by lia. split; [done|]. split; [done|].
  pose proof (Z.div_mod (P + C - 1) C).
  pose proof (Z.mod_pos_bound (P + C - 1) C). split; nia.
Qed.

Lemma remainingAt_spec size D ctr :
  sizesInRange size D C →
  0 ≤ ctr < chunksPerShardOf C size D →
  remainingAt C size D ctr = Z.min (perShardOf size D - ctr * C) C
  ∧ 0 < remainingAt C size D ctr ≤ C
  ∧ (ctr + 1 < chunksPerShardOf C size D → remainingAt C size D ctr = C)
  ∧ (ctr + 1 = chunksPerShardOf C size D →
     remainingAt C size D ctr = perShardOf size D - ctr * C).
Proof.
  intros Hr Hctr.
  destruct (chunksPerShardOf_spec size D Hr) as (_ & HN & HNC & Hlast).
  destruct (perShardOf_spec size D Hr) as (_ & _ & HP).
  destruct Hr as (Hs & HD & HC). cbn zeta in *.
  set (P := perShardOf size D) in *. set (N := chunksPerShardOf C size D) in *.
  unfold remainingAt, minViaFloat64. fold P.
  rewrite (wrap64_small (ctr * C)) by nia. rewrite wrap64_small by nia.
  split; [done|]. split; [nia|]. split; nia.
Qed.

Lemma fold_right_add_snoc (l : list Z) (x : Z) :
  fold_right Z.add 0 (l ++ [x]) = fold_right Z.add 0 l + x.
Proof. induction l as [|a l IH]; cbn; lia. Qed.

(** X1. For sizes in range the padding is shorter than one byte per data
    shard and fills the file up to [DataShards * perShard]; every chunk takes
    between one and [CHUNK_SIZE] bytes per shard, and over all chunks these
    add up to [perShard]. *)
Theorem chunk_plan_covers_padded_size size D :
  sizesInRange size D C →
  let P := perShardOf size D in
  let N := chunksPerShardOf C size D in
  0 ≤ paddingOf size D < D
  ∧ D * P = size + paddingOf size D
  ∧ Forall (λ ctr, 0 < remainingAt C size D ctr ≤ C) (seqZ 0 N)
  ∧ fold_right Z.add 0 (map (remainingAt C size D) (seqZ 0 N)) = P.
Proof.
  intros Hr. cbn zeta.
  destruct (paddingOf_spec size D Hr) as (Hpad & Hpadr).
  destruct (chunksPerShardOf_spec size D Hr) as (_ & HN & HNC & Hlast).
  cbn zeta in *.
  set (P := perShardOf size D) in *. set (N := chunksPerShardOf C size D) in *.
  split; [done|]. split; [lia|]. split.
  - apply Forall_forall. intros ctr Hc%elem_of_seqZ.
    by destruct (remainingAt_spec size D ctr Hr) as (_ & ? & _); [lia|].
  - (* all chunks but the last are full *)
    assert (∀ n : nat, Z.of_nat n ≤ N →
              fold_right Z.add 0 (map (remainingAt C size D) (seqZ 0 (Z.of_nat n)))
              = Z.min (Z.of_nat n * C) P) as Hsum.
    { induction n as [|n IH]; intros Hn.
      - replace (seqZ 0 (Z.of_nat 0)) with (@nil Z) by done.
        cbn [map fold_right]. lia.
      - rewrite seqZ_S, map_app. cbn [map]. rewrite fold_right_add_snoc.
        rewrite IH by lia. rewrite Z.add_0_l.
        destruct (remainingAt_spec size D (Z.of_nat n) Hr) as (-> & _); [lia|].
        destruct Hr as (_ & _ & HC).
        assert (Z.of_nat n * C < P) as Hlt by nia.
        replace (Z.of_nat (S n) * C) with (Z.of_nat n * C + C) by lia. lia. }
    rewrite <- (Z2Nat.id N) at 1 by lia. rewrite Hsum by lia.
    rewrite Z2Nat.id by lia. lia.
Qed.

End Plan.

Section PushFacts.
Context `{Deps}.

Lemma maskLoop_extends fuel payload nch : ∀ i c log log',
  endOf (maskLoop fuel payload nch i c log) = Some log' → log `prefix_of` log'.
Proof.
  induction fuel as [|fuel IH]; intros i c log log'; cbn [maskLoop].
  - destruct (i =? 0); [|done]. by intros [= <-].
  - destruct (i =? 0); [by intros [= <-]|]. cbn zeta.
    destruct (payload _); [|by intros [= <-]].
    destruct (c <? nch)%nat; [|by intros [= <-]].
    intros Hend. apply IH in Hend. etrans; [|exact Hend]. by apply prefix_app_r.
Qed.

Lemma sameSetup_refl req : sameSetup req req.
Proof. by repeat split. Qed.

Lemma sameSetup_trans r1 r2 r3 : sameSetup r1 r2 → sameSetup r2 r3 → sameSetup r1 r3.
Proof.
  intros (?&?&?&?&?&?) (?&?&?&?&?&?). repeat split; congruence.
Qed.

(** What every push keeps, whether it returns, fails or panics. *)
Lemma pushThumbnailData_frame req data req' e :
  endOf (pushThumbnailData req data) = Some (req', e) →
  sameSetup req req'
  ∧ filemeta req' = filemeta req
  ∧ sent req `prefix_of` sent req'
  ∧ thumbnailHash req `prefix_of` thumbnailHash req'
  ∧ (isRepair req = true → thumbnailHash req' = thumbnailHash req).
Proof.
  unfold pushThumbnailData.
  destruct (negb (isRepair req) && _) eqn:Hneg.
  { intros [= <- <-]. split; [apply sameSetup_refl|]. by repeat split. }
  set (req1 := if negb (isRepair req) then _ else req).
  assert (sameSetup req req1 ∧ filemeta req1 = filemeta req
          ∧ sent req1 = sent req
          ∧ thumbnailHash req `prefix_of` thumbnailHash req1
          ∧ (isRepair req = true → thumbnailHash req1 = thumbnailHash req))
    as (Hs & Hf & Hsent & Hh & Hrep).
  { unfold req1. destruct (isRepair req); cbn [negb].
    - split; [apply sameSetup_refl|]. by repeat split.
    - split; [by repeat split|]. split; [done|]. split; [done|].
      split; [by apply prefix_app_r|done]. }
  clearbody req1. cbn zeta.
  set (req2 := set_thumbRemaining req1 _).
  assert (sameSetup req req2) as Hs2 by (destruct Hs as (?&?&?&?&?&?); by repeat split).
  destruct (NewEncoder _ _) as [enc|err].
  2:{ intros [= <- <-]. cbn. by rewrite Hsent. }
  destruct (Encode enc data) as [shards|err].
  2:{ intros [= <- <-]. cbn. by rewrite Hsent. }
  pose proof (maskLoop_extends 32 (λ pos, shards !! Z.to_nat pos)
                (uploadThumbCh req2) (uploadMask req2) 0 (sent req2)) as Hext.
  destruct (maskLoop _ _ _ _ _ _) as [log|log|]; [| |done];
    intros [= <- <-]; specialize (Hext log eq_refl); cbn in *;
    rewrite Hsent in Hext; done.
Qed.

Lemma pushThumbnailData_fields req data req' e :
  0 ≤ thumbRemaining req < 2 ^ 62 →
  pushThumbnailData req data = Done (req', e) →
  thumbRemaining req'
  = Z.max 0 (thumbRemaining req - Z.of_nat (length data))
  ∧ (isRepair req = false →
     thumbnailHash req'
     = thumbnailHash req ++ take (Z.to_nat (thumbRemaining req)) data)
  ∧ (is_Some e → sent req' = sent req).
Proof.
  intros Hrem. unfold pushThumbnailData, minViaFloat64.
  destruct (negb (isRepair req) && _); [done|].
  assert (wrap64 (thumbRemaining req
                  - Z.min (thumbRemaining req) (Z.of_nat (length data)))
          = Z.max 0 (thumbRemaining req - Z.of_nat (length data))) as Hw
    by (rewrite wrap64_small; lia).
  assert (take (Z.to_nat (Z.min (thumbRemaining req) (Z.of_nat (length data)))) data
          = take (Z.to_nat (thumbRemaining req)) data) as Ht.
  { destruct (decide (thumbRemaining req ≤ Z.of_nat (length data))).
    - by rewrite Z.min_l.
    - rewrite Z.min_r, Nat2Z.id by lia. rewrite !take_ge; [done|lia|lia]. }
  destruct (isRepair req) eqn:Hr; cbn [negb];
    (destruct (NewEncoder _ _) as [enc|err];
     [destruct (Encode enc data) as [shards|err];
      [destruct (maskLoop _ _ _ _ _ _) as [log|log|]; [| done |done]|]|]);
    intros [= <- <-]; cbn; rewrite ?Hw, ?Ht;
    (split; [done|]); (split; [done|]); try done; by intros [? ?].
Qed.

(** X2. A push that returns, with or without an error, has lowered the
    budget by the length of the chunk, but not below zero; outside repair
    mode it has fed the hash the chunk cut to the budget, also when the
    encoder then failed; and a push that returns an error has sent nothing. *)
Theorem pushThumbnailData_accounting req data req' e :
  0 ≤ thumbRemaining req < 2 ^ 62 →
  pushThumbnailData req data = Done (req', e) →
  thumbRemaining req'
  = Z.max 0 (thumbRemaining req - Z.of_nat (length data))
  ∧ (isRepair req = false →
     thumbnailHash req'
     = thumbnailHash req ++ take (Z.to_nat (thumbRemaining req)) data)
  ∧ (is_Some e → sent req' = sent req).
Proof. apply pushThumbnailData_fields. Qed.

End PushFacts.

Section ReaderFacts.

Lemma take_budget_step {A} (l : list A) (b c len : nat) :
  take b (take c l) ++ take (b - c) (take len (drop c l))
  = take b (take (c + len) l).
Proof.
  rewrite !take_take. destruct (decide (b ≤ c)%nat) as [Hle|Hgt].
  - replace (b - c)%nat with 0%nat by lia. cbn. rewrite app_nil_r.
    f_equal. lia.
  - rewrite (Nat.min_r b c) by lia.
    replace (take (b `min` (c + len)) l)
      with (take (c + (b - c) `min` len) l) by (f_equal; lia).
    by rewrite take_take_drop.
Qed.

(** A read that starts inside the file returns the next bytes of the padded
    stream, also when it runs past the end of the file. *)
Lemma Read_stream (file : bytes) (pad c len : nat) :
  (0 < len)%nat → (c < length file)%nat → (c + len ≤ length file + pad)%nat →
  Read {| fileLeft := drop c file; paddingLeft := pad |} len
  = inl (take len (drop c (file ++ replicate pad Byte.x00)),
         {| fileLeft := drop (c + len) file; paddingLeft := pad |}).
Proof.
  intros Hlen Hc Hfit. unfold Read. destruct len as [|len']; [lia|].
  set (len := S len') in *. cbn [fileLeft paddingLeft].
  destruct (drop c file) as [|x rest] eqn:Hd.
  { apply (f_equal length) in Hd. rewrite length_drop in Hd. cbn in Hd. lia. }
  rewrite <- Hd. rewrite drop_drop. f_equal. f_equal.
  rewrite drop_app_le by lia. rewrite take_app. f_equal.
  rewrite take_replicate, length_take, length_drop. f_equal. lia.
Qed.

End ReaderFacts.

Section PushRuns.
Context `{Deps}.

Lemma encoderServes_sameSetup req req' :
  sameSetup req req' → encoderServes req → encoderServes req'.
Proof.
  intros (_ & Hd & Hp & Hm & _). unfold encoderServes. by rewrite Hd, Hp, Hm.
Qed.

Lemma shards_for_bits (shards : list bytes) (ps : list Z) :
  (∀ p, p ∈ ps → (Z.to_nat p < length shards)%nat) →
  ∃ vs, Forall2 (λ p v, shards !! Z.to_nat p = Some v) ps vs.
Proof.
  induction ps as [|p ps IH]; intros Hidx; [by exists []|].
  destruct IH as [vs Hvs]; [intros; apply Hidx; by right|].
  destruct (lookup_lt_is_Some_2 shards (Z.to_nat p)) as [v Hv];
    [apply Hidx; by left|].
  exists (v :: vs). by constructor.
Qed.

Lemma fst_imap_seq (vs : list bytes) (c : nat) :
  map fst (imap (λ j v, ((c + j)%nat, v)) vs) = seq c (length vs).
Proof.
  revert c. induction vs as [|v vs IH]; intros c; [done|].
  cbn [imap map length seq fst]. rewrite Nat.add_0_r. f_equal.
  rewrite <- IH. f_equal. apply imap_ext. intros j x _. cbn. f_equal. lia.
Qed.

(** A push that goes through. *)
Lemma pushThumbnailData_run req data :
  0 ≤ uploadMask req < 2 ^ 32 →
  0 ≤ thumbRemaining req < 2 ^ 62 →
  encoderServes req →
  (length (setBits (uploadMask req)) ≤ uploadThumbCh req)%nat →
  ∃ req',
    pushThumbnailData req data = Done (req', None)
    ∧ sameSetup req req'
    ∧ filemeta req' = filemeta req
    ∧ thumbRemaining req'
      = Z.max 0 (thumbRemaining req - Z.of_nat (length data))
    ∧ thumbnailHash req'
      = (if isRepair req then thumbnailHash req
         else thumbnailHash req ++ take (Z.to_nat (thumbRemaining req)) data)
    ∧ length (sent req')
      = (length (sent req) + length (setBits (uploadMask req)))%nat
    ∧ map fst (sent req')
      = map fst (sent req) ++ seq 0 (length (setBits (uploadMask req)))
    ∧ sent req `prefix_of` sent req'.
Proof.
  intros Hmask Hrem (enc & Henc & Hserve) Hch.
  destruct (Hserve data) as (shards & Hshards & Hidx).
  destruct (shards_for_bits shards _ Hidx) as [vs Hvs].
  assert (length vs = length (setBits (uploadMask req))) as Hlen
    by (symmetry; by eapply Forall2_length).
  assert (∃ req', pushThumbnailData req data = Done (req', None)
                  ∧ sent req' = sent req ++ imap (λ c v, (c, v)) vs)
    as (req' & Hrun & Hsent).
  { unfold pushThumbnailData.
    assert (negb (isRepair req)
            && (minViaFloat64 (thumbRemaining req) (Z.of_nat (length data)) <? 0)
            = false) as ->.
    { unfold minViaFloat64. destruct (isRepair req); [done|]. cbn.
      apply Z.ltb_ge. lia. }
    destruct (isRepair req); cbn [negb];
      cbn [set_thumbRemaining set_thumbnailHash datashards parityshards
           uploadThumbCh uploadMask sent];
      rewrite Henc, Hshards;
      rewrite (ThumbnailSpec.maskLoop32_done _ _ _ _ vs) by (done || lia);
      by eexists. }
  exists req'. split; [done|].
  destruct (pushThumbnailData_frame req data req' None) as (Hs & Hf & Hp & _);
    [by rewrite Hrun|].
  destruct (pushThumbnailData_fields req data req' None Hrem Hrun)
    as (Hr & Hh & _).
  split; [done|]. split; [done|]. split; [done|]. split.
  - destruct (isRepair req) eqn:Hrep; [|by apply Hh].
    by destruct (pushThumbnailData_frame req data req' None) as (_&_&_&_&->);
      [by rewrite Hrun|done|].
  - rewrite Hsent, length_app, length_imap, Hlen. split; [done|].
    split; [|by apply prefix_app_r].
    rewrite map_app. f_equal. rewrite <- Hlen, <- (fst_imap_seq vs 0).
    f_equal.
Qed.

(** Completion outside repair mode. *)
Lemma completeThumbnailPush_run req :
  0 ≤ uploadMask req < 2 ^ 32 →
  isRepair req = false →
  (length (setBits (uploadMask req)) ≤ uploadThumbCh req)%nat →
  completeThumbnailPush req
  = Done (set_sent
            (set_ThumbnailHash req
               (hexEncodeToString (Sum (thumbnailHash req))))
            (sent req ++ map (λ c, (c, doneBytes))
                           (seq 0 (length (setBits (uploadMask req))))),
          None).
Proof.
  intros Hmask Hrep Hch. unfold completeThumbnailPush. rewrite Hrep. cbn [negb].
  cbn [set_ThumbnailHash uploadThumbCh uploadMask sent].
  set (m := length (setBits (uploadMask req))) in *.
  rewrite (ThumbnailSpec.maskLoop32_done _ _ _ _ (replicate m doneBytes)).
  - rewrite <- (ThumbnailSpec.imap_replicate_seq doneBytes 0%nat m). done.
  - done.
  - subst m. generalize (setBits (uploadMask req)) as ps.
    induction ps; cbn; by constructor.
  - by rewrite length_replicate.
Qed.

Lemma completeThumbnailPush_frame req req' e :
  endOf (completeThumbnailPush req) = Some (req', e) →
  sameSetup req req'
  ∧ sent req `prefix_of` sent req'
  ∧ thumbnailHash req' = thumbnailHash req
  ∧ (isRepair req = true → req' = req).
Proof.
  unfold completeThumbnailPush. destruct (isRepair req); cbn [negb].
  { intros [= <- <-]. split; [apply sameSetup_refl|]. by repeat split. }
  pose proof (maskLoop_extends 32 (λ _, Some doneBytes)
                (uploadThumbCh req) (uploadMask req) 0 (sent req)) as Hext.
  cbn [set_ThumbnailHash uploadThumbCh uploadMask sent].
  destruct (maskLoop _ _ _ _ _ _) as [log|log|]; [| |done];
    intros [= <- <-]; specialize (Hext log eq_refl); cbn;
    (split; [by repeat split|]); by repeat split.
Qed.

End PushRuns.

Section ProcessRuns.
Context `{Deps}.
Variables (C : Z) (a : Allocation) (req0 : UploadRequest) (file : bytes).

Hypothesis Hrange :
  sizesInRange (ThumbnailSize (filemeta req0)) (DataShards a) C.
Hypothesis Hfile : Z.of_nat (length file) = ThumbnailSize (filemeta req0).
Hypothesis Hmask : 0 ≤ uploadMask req0 < 2 ^ 32.
Hypothesis Hrem : 0 ≤ thumbRemaining req0 < 2 ^ 62.
Hypothesis Henc : encoderServes req0.
Hypothesis Hch :
  (length (setBits (uploadMask req0)) ≤ uploadThumbCh req0)%nat.

Lemma consumedAt_facts (k : nat) :
  let size := ThumbnailSize (filemeta req0) in
  let D := DataShards a in
  Z.of_nat k < chunksPerShardOf C size D →
  let len := Z.to_nat (remainingAt C size D (Z.of_nat k) * D) in
  wrap64 (remainingAt C size D (Z.of_nat k) * D)
  = remainingAt C size D (Z.of_nat k) * D
  ∧ (0 < len)%nat
  ∧ (consumedAt C a req0 k < length file)%nat
  ∧ (consumedAt C a req0 k + len ≤ length file + Z.to_nat (paddingOf size D))%nat
  ∧ consumedAt C a req0 (S k) = (consumedAt C a req0 k + len)%nat.
Proof.
  cbn zeta. intros Hk.
  destruct (remainingAt_spec C _ _ (Z.of_nat k) Hrange) as (Hr & Hrr & _); [lia|].
  destruct (chunksPerShardOf_spec C _ _ Hrange) as (_ & HN & HNC & Hlast).
  destruct (perShardOf_spec C _ _ Hrange) as (_ & Hpad & HP).
  destruct (paddingOf_spec C _ _ Hrange) as (Hpd & _).
  pose proof Hrange as (Hs & HD & HC). cbn zeta in *.
  unfold consumedAt.
  set (size := ThumbnailSize (filemeta req0)) in *.
  set (D := DataShards a) in *. set (P := perShardOf size D) in *.
  set (N := chunksPerShardOf C size D) in *.
  set (r := remainingAt C size D (Z.of_nat k)) in *.
  assert (Z.of_nat k * C < P) as HkC by nia.
  assert (0 < r * D ≤ C * D) as HrD by nia.
  assert (Z.min (Z.of_nat k * C) P = Z.of_nat k * C) as -> by lia.
  assert (Z.min (Z.of_nat (S k) * C) P = Z.of_nat k * C + r) as -> by lia.
  assert (Z.of_nat k * C * D + r * D ≤ P * D) as Hfit by nia.
  assert (Z.of_nat k * C * D < size) as Hin by nia.
  assert (0 ≤ Z.of_nat k * C * D) as Hnn by nia.
  split; [apply wrap64_small; nia|]. split; [lia|]. split; [lia|].
  split; [rewrite Hpd; lia|].
  rewrite Z.mul_add_distr_r. lia.
Qed.

Lemma consumedAt_0 : consumedAt C a req0 0 = 0%nat.
Proof.
  unfold consumedAt. destruct (perShardOf_spec C _ _ Hrange) as (_ & _ & HP).
  rewrite Z.min_l by lia. done.
Qed.

Lemma consumedAt_end :
  consumedAt C a req0 (Z.to_nat (chunksPerShardOf C (ThumbnailSize (filemeta req0))
                          (DataShards a)))
  = length (paddedStream file
              (paddingOf (ThumbnailSize (filemeta req0)) (DataShards a))).
Proof.
  unfold consumedAt, paddedStream.
  destruct (chunksPerShardOf_spec C _ _ Hrange) as (_ & HN & HNC & _).
  destruct (paddingOf_spec C _ _ Hrange) as (Hpd & Hpdr).
  cbn zeta in *. rewrite Z2Nat.id by lia. rewrite Z.min_r by lia.
  rewrite length_app, length_replicate. lia.
Qed.

Lemma seqZ_cons' (m : Z) (n : nat) :
  seqZ m (Z.of_nat (S n)) = m :: seqZ (m + 1) (Z.of_nat n).
Proof.
  rewrite seqZ_cons by lia. f_equal. f_equal; lia.
Qed.

Lemma chunkLoop_run (n : nat) : ∀ (k : nat) req r,
  (k + n)%nat = Z.to_nat (chunksPerShardOf C (ThumbnailSize (filemeta req0))
                            (DataShards a)) →
  pushedChunks C a req0 file k req →
  ((0 < n)%nat →
   r = {| fileLeft := drop (consumedAt C a req0 k) file;
          paddingLeft := Z.to_nat (paddingOf (ThumbnailSize (filemeta req0))
                                     (DataShards a)) |}) →
  ∃ req' r',
    chunkLoop C a (ThumbnailSize (filemeta req0))
      (seqZ (Z.of_nat k) (Z.of_nat n)) req r
    = Done (inl (req', r'))
    ∧ pushedChunks C a req0 file (k + n) req'.
Proof.
  induction n as [|n IH]; intros k req r Hkn Hreq Hr.
  - exists req, r. split; [done|]. by rewrite Nat.add_0_r.
  - rewrite seqZ_cons'. cbn [chunkLoop].
    destruct (chunksPerShardOf_spec C _ _ Hrange) as (_ & HN & _).
    cbn zeta in HN.
    destruct (consumedAt_facts k) as (Hw & Hlen & Hin & Hfit & Hstep); [lia|].
    cbn zeta in *. rewrite Hw.
    destruct (Z.ltb_spec (remainingAt C (ThumbnailSize (filemeta req0))
                            (DataShards a) (Z.of_nat k) * DataShards a) 0);
      [lia|].
    rewrite (Hr ltac:(lia)), Read_stream by done.
    destruct Hreq as (Hs & Hf & Hrm & Hh & Hsent & Hfst & Hpre).
    pose proof Hs as (Hrep & _ & _ & Hm & Hc & _).
    set (b1 := take _ (drop _ _)).
    assert (length b1
            = Z.to_nat (remainingAt C (ThumbnailSize (filemeta req0))
                          (DataShards a) (Z.of_nat k) * DataShards a)) as Hb1.
    { unfold b1. rewrite length_take, length_drop, length_app, length_replicate.
      lia. }
    destruct (pushThumbnailData_run req b1)
      as (req' & -> & Hs' & Hf' & Hrm' & Hh' & Hsent' & Hfst' & Hpre').
    { by rewrite Hm. }
    { rewrite Hrm. lia. }
    { by eapply encoderServes_sameSetup. }
    { by rewrite Hm, Hc. }
    replace (Z.of_nat k + 1) with (Z.of_nat (S k)) by lia.
    destruct (IH (S k) req'
                {| fileLeft := drop (consumedAt C a req0 k + Z.to_nat
                      (remainingAt C (ThumbnailSize (filemeta req0))
                         (DataShards a) (Z.of_nat k) * DataShards a)) file;
                   paddingLeft := Z.to_nat (paddingOf (ThumbnailSize (filemeta req0))
                                              (DataShards a)) |})
      as (req'' & r'' & Hrun & Hfin).
    + lia.
    + split; [by eapply sameSetup_trans|]. split; [congruence|].
      split; [rewrite Hrm', Hrm, Hb1, Hstep; lia|]. split; [|split; [|split]].
      * rewrite Hh', Hrep, Hh. destruct (isRepair req0); [done|].
        rewrite <- app_assoc. f_equal. rewrite Hrm, Hstep.
        replace (Z.to_nat (Z.max 0 (thumbRemaining req0 - Z.of_nat (consumedAt C a req0 k))))
          with (Z.to_nat (thumbRemaining req0) - consumedAt C a req0 k)%nat by lia.
        unfold b1, paddedStream. apply take_budget_step.
      * rewrite Hsent', Hsent, Hm. lia.
      * rewrite Hfst', Hfst, Hm, <- app_assoc. f_equal.
        replace (S k) with (k + 1)%nat by lia.
        rewrite replicate_add, concat_app. cbn. by rewrite app_nil_r.
      * by etrans.
    + intros _. by rewrite Hstep.
    + exists req'', r''. split; [done|]. by rewrite <- Nat.add_succ_comm.
Qed.

(** X3. For a file of [ThumbnailSize] bytes, an encoder that serves every
    active node and enough channels, [processThumbnail] returns after calling
    [Done] once.  The last read, which runs past the end of the file, still
    delivers the zero padding, so that the hash has been fed the padded
    stream cut to the budget: exactly the file when the budget is the size of
    the file.  The channels were written round by round, channels [0..m-1]
    once per chunk and, outside repair mode, once more with "done" as the
    last [m] messages; the thumbnail hash is the hex digest outside repair
    mode and untouched in it. *)
Theorem processThumbnail_pushes_padded_file (wg : nat) :
  let size := ThumbnailSize (filemeta req0) in
  let pad := paddingOf size (DataShards a) in
  let N := Z.to_nat (chunksPerShardOf C size (DataShards a)) in
  let m := length (setBits (uploadMask req0)) in
  ∃ req',
    processThumbnail C a (inl file) req0 wg = Done (req', S wg)
    ∧ sameSetup req0 req'
    ∧ thumbRemaining req' = Z.max 0 (thumbRemaining req0 - (size + pad))
    ∧ thumbnailHash req'
      = (if isRepair req0 then thumbnailHash req0
         else thumbnailHash req0
              ++ take (Z.to_nat (thumbRemaining req0)) (paddedStream file pad))
    ∧ ThumbnailHash (filemeta req')
      = (if isRepair req0 then ThumbnailHash (filemeta req0)
         else hexEncodeToString (Sum (thumbnailHash req')))
    ∧ map fst (sent req')
      = map fst (sent req0)
        ++ concat (replicate (N + (if isRepair req0 then 0 else 1)) (seq 0 m))
    ∧ (isRepair req0 = false →
       ∃ shards, sent req' = shards ++ map (λ c, (c, doneBytes)) (seq 0 m))
    ∧ (isRepair req0 = false → thumbRemaining req0 = size →
       thumbnailHash req' = thumbnailHash req0 ++ file).
Proof.
  cbn zeta.
  destruct (paddingOf_spec C _ _ Hrange) as (Hpd & Hpdr).
  destruct (chunksPerShardOf_spec C _ _ Hrange) as (_ & HN & _).
  pose proof Hrange as (Hs & HD & HC). cbn zeta in HN.
  destruct (chunkLoop_run
              (Z.to_nat (chunksPerShardOf C (ThumbnailSize (filemeta req0))
                           (DataShards a))) 0 req0
              {| fileLeft := file;
                 paddingLeft := Z.to_nat (paddingOf (ThumbnailSize (filemeta req0))
                                            (DataShards a)) |})
    as (req1 & r1 & Hloop & Hreq1).
  { done. }
  { split; [apply sameSetup_refl|]. split; [done|].
    rewrite consumedAt_0. split; [lia|].
    split; [|split; [cbn; lia|split; [cbn; by rewrite app_nil_r|done]]].
    destruct (isRepair req0); [done|]. by rewrite take_0, take_nil, app_nil_r. }
  { intros _. by rewrite consumedAt_0. }
  rewrite Z2Nat.id in Hloop by lia. change (Z.of_nat 0) with 0 in Hloop.
  cbn [Nat.add] in Hreq1.
  destruct Hreq1 as (Hs1 & Hf1 & Hrm1 & Hh1 & Hsent1 & Hfst1 & Hpre1).
  rewrite consumedAt_end in Hrm1, Hh1.
  rewrite (take_ge (paddedStream _ _)) in Hh1 by lia.
  assert (Z.of_nat (length (paddedStream file
                              (paddingOf (ThumbnailSize (filemeta req0))
                                 (DataShards a))))
          = ThumbnailSize (filemeta req0)
            + paddingOf (ThumbnailSize (filemeta req0)) (DataShards a)) as Hlen.
  { unfold paddedStream. rewrite length_app, length_replicate. lia. }
  rewrite Hlen in Hrm1.
  pose proof Hs1 as (Hrep & _ & _ & Hm & Hc & _).
  assert (isRepair req0 = false → thumbRemaining req0 = ThumbnailSize (filemeta req0) →
          take (Z.to_nat (thumbRemaining req0))
            (paddedStream file (paddingOf (ThumbnailSize (filemeta req0))
                                  (DataShards a))) = file) as Hexact.
  { intros _ ->. unfold paddedStream. rewrite <- Hfile, Nat2Z.id.
    apply take_app_length. }
  unfold processThumbnail.
  destruct (Z.eqb_spec (DataShards a) 0); [lia|].
  destruct (Z.ltb_spec (paddingOf (ThumbnailSize (filemeta req0)) (DataShards a)) 0);
    [lia|].
  destruct (Z.eqb_spec C 0); [lia|]. rewrite Hloop.
  destruct (isRepair req0) eqn:Hr0.
  - unfold completeThumbnailPush. rewrite Hrep. cbn [negb].
    exists req1. split; [done|]. split; [done|]. split; [done|].
    split; [done|]. split; [by rewrite Hf1|]. split; [|done].
    by rewrite Hfst1, Nat.add_0_r.
  - rewrite completeThumbnailPush_run by (rewrite ?Hm, ?Hc; done).
    eexists. split; [reflexivity|]. cbn.
    split; [destruct Hs1 as (?&?&?&?&?&?); by repeat split|].
    split; [done|]. split; [done|]. split; [done|]. split; [|split].
    + rewrite map_app, map_map, Hfst1, Hm, <- app_assoc. cbn [fst].
      rewrite map_id, replicate_add, concat_app. cbn. by rewrite app_nil_r.
    + intros _. rewrite Hm. by eexists.
    + intros _ Hsz. by rewrite Hh1, Hexact.
Qed.

End ProcessRuns.

Section ProcessFrame.
Context `{Deps}.

Lemma chunkLoop_frame C a size ctrs : ∀ req r x,
  endOf (chunkLoop C a size ctrs req r) = Some x →
  sameSetup req (leftBy x)
  ∧ filemeta (leftBy x) = filemeta req
  ∧ sent req `prefix_of` sent (leftBy x)
  ∧ thumbnailHash req `prefix_of` thumbnailHash (leftBy x)
  ∧ (isRepair req = true → thumbnailHash (leftBy x) = thumbnailHash req).
Proof.
  induction ctrs as [|ctr ctrs IH]; intros req r x; cbn [chunkLoop].
  - intros [= <-]. cbn. split; [apply sameSetup_refl|]. by repeat split.
  - assert (sameSetup req req ∧ filemeta req = filemeta req
            ∧ sent req `prefix_of` sent req
            ∧ thumbnailHash req `prefix_of` thumbnailHash req
            ∧ (isRepair req = true → thumbnailHash req = thumbnailHash req))
      as Hrefl by (split; [apply sameSetup_refl|]; by repeat split).
    cbn zeta. destruct (_ <? 0); [by intros [= <-]|].
    destruct (Read r _) as [[b1 r']|]; [|by intros [= <-]].
    pose proof (pushThumbnailData_frame req b1) as Hpush.
    destruct (pushThumbnailData req b1) as [[req' [e|]]|[req' e]|]; [| | |done].
    + intros [= <-]. cbn. by apply (Hpush req' (Some e)).
    + intros Hend. destruct (Hpush req' None eq_refl) as (Hs & Hf & Hp & Hh & Hrep).
      destruct (IH _ _ _ Hend) as (Hs' & Hf' & Hp' & Hh' & Hrep').
      split; [by eapply sameSetup_trans|]. split; [congruence|].
      split; [by etrans|]. split; [by etrans|].
      intros Hr. rewrite Hrep', Hrep; [done|done|].
      destruct Hs as (-> & _). done.
    + intros [= <-]. cbn. by apply (Hpush req' e).
Qed.

(** X4. Whatever way [processThumbnail] ends, by a failed open or read, a
    failed push, a panic or a normal return, [Done] has been called once, the
    setup of the request is as it was, and what was sent and what was hashed
    have only grown; in repair mode the hash and the file meta are untouched,
    and after a failed open so is the whole request: no "done" is sent. *)
Theorem processThumbnail_frame C a opened req wg req' wg' :
  endOf (processThumbnail C a opened req wg) = Some (req', wg') →
  wg' = S wg
  ∧ sameSetup req req'
  ∧ sent req `prefix_of` sent req'
  ∧ thumbnailHash req `prefix_of` thumbnailHash req'
  ∧ (isRepair req = true →
     thumbnailHash req' = thumbnailHash req ∧ filemeta req' = filemeta req)
  ∧ (∀ e, opened = inr e → req' = req).
Proof.
  assert (wg' = S wg → req' = req →
          wg' = S wg ∧ sameSetup req req' ∧ sent req `prefix_of` sent req'
          ∧ thumbnailHash req `prefix_of` thumbnailHash req'
          ∧ (isRepair req = true →
             thumbnailHash req' = thumbnailHash req ∧ filemeta req' = filemeta req)
          ∧ (∀ e, opened = inr e → req' = req)) as Hsame.
  { intros -> ->. split; [done|]. split; [apply sameSetup_refl|]. by repeat split. }
  unfold processThumbnail. destruct opened as [inFile|e0].
  2:{ intros [= <- <-]. by apply Hsame. }
  destruct (_ =? 0); [intros [= <- <-]; by apply Hsame|].
  destruct (_ <? 0); [intros [= <- <-]; by apply Hsame|].
  destruct (C =? 0); [intros [= <- <-]; by apply Hsame|].
  pose proof (chunkLoop_frame C a (ThumbnailSize (filemeta req))
                (seqZ 0 (chunksPerShardOf C (ThumbnailSize (filemeta req))
                           (DataShards a))) req
                {| fileLeft := inFile;
                   paddingLeft := Z.to_nat (paddingOf (ThumbnailSize (filemeta req))
                                              (DataShards a)) |}) as Hloop.
  assert (∀ x, endOf (chunkLoop C a (ThumbnailSize (filemeta req))
                (seqZ 0 (chunksPerShardOf C (ThumbnailSize (filemeta req))
                           (DataShards a))) req
                {| fileLeft := inFile;
                   paddingLeft := Z.to_nat (paddingOf (ThumbnailSize (filemeta req))
                                              (DataShards a)) |}) = Some x →
              req' = leftBy x → wg' = S wg →
              wg' = S wg ∧ sameSetup req req' ∧ sent req `prefix_of` sent req'
              ∧ thumbnailHash req `prefix_of` thumbnailHash req'
              ∧ (isRepair req = true →
                 thumbnailHash req' = thumbnailHash req
                 ∧ filemeta req' = filemeta req)
              ∧ (∀ e : error, @inl bytes error inFile = inr e → req' = req))
    as Hearly.
  { intros x Hx -> ->. destruct (Hloop x Hx) as (Hs & Hf & Hp & Hh & Hrep).
    split; [done|]. split; [done|]. split; [done|]. split; [done|].
    split; [|done]. intros Hr. split; [by apply Hrep|done]. }
  destruct (chunkLoop _ _ _ _ _ _) as [[[req1 r1]|req1]|[[req1 r1]|req1]|];
    [| | | |done].
  - pose proof (completeThumbnailPush_frame req1) as Hcomp.
    destruct (Hloop _ eq_refl) as (Hs & Hf & Hp & Hh & Hrep). cbn in *.
    destruct (completeThumbnailPush req1) as [[req2 e]|[req2 e]|]; [| |done];
      intros [= <- <-];
      destruct (Hcomp req2 e eq_refl) as (Hs2 & Hp2 & Hh2 & Hrep2);
      (split; [done|]); (split; [by eapply sameSetup_trans|]);
      (split; [by etrans|]); (split; [by rewrite Hh2|]);
      (split; [|done]); intros Hr;
      (rewrite Hrep2 by (destruct Hs as (-> & _); done));
      (split; [by apply Hrep|done]).
  - intros [= <- <-]. by apply (Hearly (inr req1)).
  - intros [= <- <-]. by apply (Hearly (inl (req1, r1))).
  - intros [= <- <-]. by apply (Hearly (inr req1)).
Qed.

End ProcessFrame.

Section TooFewChannels.
Context `{Deps}.

Lemma maskLoop_out_of_channels fuel payload nch : ∀ i k c log vs,
  word32 i → 0 ≤ k ≤ 32 →
  (∀ q, 0 ≤ q < k → Z.testbit i q = false) →
  (Z.to_nat (32 - k) ≤ fuel)%nat →
  Forall2 (λ p v, payload p = Some v) (bitsFrom k i) vs →
  (c ≤ nch < c + length vs)%nat →
  maskLoop fuel payload nch i c log
  = Panic (log ++ imap (λ j v, ((c + j)%nat, v)) (take (nch - c) vs)).
Proof.
  induction fuel as [|fuel IH]; intros i k c log vs Hw Hk Hbelow Hfuel Hvs Hc.
  - assert (i = 0) as ->.
    { apply Z.bits_inj'. intros q Hq. rewrite Z.bits_0.
      destruct (decide (q < 32)); [apply Hbelow; lia | apply Hw; lia]. }
    rewrite bitsFrom_zero in Hvs. apply Forall2_nil_inv_l in Hvs as ->.
    cbn in Hc. lia.
  - cbn [maskLoop]. destruct (Z.eqb_spec i 0) as [->|Hne].
    + rewrite bitsFrom_zero in Hvs. apply Forall2_nil_inv_l in Hvs as ->.
      cbn in Hc. lia.
    + destruct (bitsFrom_step i k Hw Hne (proj1 Hk) Hbelow) as [Hkp Heq].
      destruct (TrailingZeros32_spec i Hw Hne) as (Hpos & Hset & Hlow).
      rewrite Heq in Hvs.
      apply Forall2_cons_inv_l in Hvs as (v & vs' & Hv & Hvs' & ->).
      cbn zeta. rewrite Hv. cbn [length] in Hc.
      destruct (Nat.ltb_spec c nch) as [Hlt|Hge].
      * rewrite (IH _ (TrailingZeros32 i + 1) (S c) _ vs').
        -- f_equal. rewrite <- app_assoc. f_equal.
           replace (nch - c)%nat with (S (nch - S c)) by lia.
           cbn [take app imap]. rewrite Nat.add_0_r. f_equal.
           apply imap_ext. intros j x _. cbn. f_equal. lia.
        -- by apply clear_bit_word32.
        -- lia.
        -- intros q Hq. rewrite clear_bit_testbit by (done || lia).
           destruct (decide (q = TrailingZeros32 i)) as [->|Hqp].
           ++ rewrite Z.eqb_refl. apply andb_false_r.
           ++ rewrite Hlow by lia. done.
        -- lia.
        -- done.
        -- lia.
      * replace (nch - c)%nat with 0%nat by lia. cbn. by rewrite app_nil_r.
Qed.

(** X5. With fewer channels than active nodes, completion outside repair
    mode panics on the index of the first missing channel, after it has
    stored the thumbnail hash and sent "done" on every channel there is. *)
Theorem completeThumbnailPush_panics_without_channel req :
  0 ≤ uploadMask req < 2 ^ 32 →
  isRepair req = false →
  (uploadThumbCh req < length (setBits (uploadMask req)))%nat →
  completeThumbnailPush req
  = Panic (set_sent
             (set_ThumbnailHash req
                (hexEncodeToString (Sum (thumbnailHash req))))
             (sent req ++ map (λ c, (c, doneBytes)) (seq 0 (uploadThumbCh req))),
           None).
Proof.
  intros Hmask Hrep Hch. unfold completeThumbnailPush. rewrite Hrep. cbn [negb].
  cbn [set_ThumbnailHash uploadThumbCh uploadMask sent].
  set (m := length (setBits (uploadMask req))) in *.
  rewrite (maskLoop_out_of_channels 32 _ _ _ 0 0%nat _ (replicate m doneBytes)).
  - rewrite Nat.sub_0_r, take_replicate, Nat.min_l by lia.
    by rewrite (ThumbnailSpec.imap_replicate_seq doneBytes 0%nat).
  - by apply word32_of_range.
  - lia.
  - intros; lia.
  - lia.
  - rewrite bitsFrom_0. subst m. generalize (setBits (uploadMask req)) as ps.
    induction ps; cbn; by constructor.
  - rewrite length_replicate. lia.
Qed.

End TooFewChannels.


Lemma fixture_sizesInRange : sizesInRange 8 6 1.
Proof. unfold sizesInRange. lia. Qed.

Lemma chunk_plan_covers_padded_size_witness :
  paddingOf 8 6 = 4
  ∧ 6 * perShardOf 8 6 = 8 + paddingOf 8 6
  ∧ map (remainingAt 1 8 6) (seqZ 0 (chunksPerShardOf 1 8 6)) = [1; 1].
Proof.
  destruct (chunk_plan_covers_padded_size 1 8 6 fixture_sizesInRange)
    as (_ & Hsum & _).
  split; [reflexivity|]. split; [exact Hsum|]. reflexivity.
Defined.

Lemma pushThumbnailData_accounting_witness :
  ∃ req',
    pushThumbnailData (fixtureRequest false) (fixtureChunk ++ fixtureChunk)
    = Done (req', None)
    ∧ thumbRemaining req' = 0
    ∧ thumbnailHash req' = Byte.x01 :: fixtureChunk.
Proof.
  assert (0 ≤ thumbRemaining (fixtureRequest false) < 2 ^ 62) as Hrem
    by (cbn; lia).
  assert (∃ req', pushThumbnailData (fixtureRequest false)
                     (fixtureChunk ++ fixtureChunk) = Done (req', None))
    as [req' Hrun] by (eexists; vm_compute; reflexivity).
  destruct (pushThumbnailData_accounting (fixtureRequest false)
              (fixtureChunk ++ fixtureChunk) req' None Hrem Hrun)
    as (Hr & Hh & _).
  exists req'. split; [exact Hrun|]. split; [exact Hr|]. exact (Hh eq_refl).
Defined.

Lemma fixture_encoderServes repair : encoderServes (fixtureRequest repair).
Proof.
  exists 8%nat. split; [reflexivity|]. intros data. eexists.
  split; [reflexivity|]. intros p Hp.
  change (p ∈ setBits 37) in Hp.
  replace (setBits 37) with [0; 2; 5] in Hp by (vm_compute; reflexivity).
  rewrite length_map, length_seq.
  repeat (apply elem_of_cons in Hp as [->|Hp]); try lia.
  by apply elem_of_nil in Hp.
Qed.

Lemma processThumbnail_pushes_padded_file_witness :
  ∃ req',
    processThumbnail chunkSize allocation (inl fixtureChunk)
      (fixtureRequest false) 0
    = Done (req', 1%nat)
    ∧ thumbnailHash req' = Byte.x01 :: fixtureChunk
    ∧ ThumbnailHash (filemeta req') = "011011121314151617"%string
    ∧ map fst (sent req') = [0; 1; 2; 0; 1; 2; 0; 1; 2]%nat.
Proof.
  assert (0 ≤ 37 < 2 ^ 32) as Hmask by lia.
  assert (0 ≤ 8 < 2 ^ 62) as Hrem by lia.
  assert (length (setBits 37) ≤ 3)%nat as Hch by (vm_compute; lia).
  destruct (processThumbnail_pushes_padded_file chunkSize allocation
              (fixtureRequest false) fixtureChunk fixture_sizesInRange eq_refl
              Hmask Hrem (fixture_encoderServes false) Hch 0)
    as (req' & Hrun & _ & _ & _ & Hhex & Hfst & _ & Hexact).
  exists req'. split; [exact Hrun|].
  pose proof (Hexact eq_refl eq_refl) as Hh. split; [exact Hh|].
  split; [rewrite Hhex, Hh; reflexivity|exact Hfst].
Defined.

Lemma processThumbnail_frame_witness :
  ∃ req',
    endOf (processThumbnail chunkSize allocation (inl fixtureChunk)
             (fixtureRequest true) 0)
    = Some (req', 1%nat)
    ∧ thumbnailHash req' = [Byte.x01]
    ∧ filemeta req' = filemeta (fixtureRequest true)
    ∧ length (sent req') = 6%nat.
Proof.
  assert (∃ req', endOf (processThumbnail chunkSize allocation (inl fixtureChunk)
                           (fixtureRequest true) 0) = Some (req', 1%nat)
                  ∧ length (sent req') = 6%nat)
    as (req' & Hrun & Hlen) by (eexists; vm_compute; split; reflexivity).
  destruct (processThumbnail_frame chunkSize allocation (inl fixtureChunk)
              (fixtureRequest true) 0 req' 1 Hrun) as (_ & _ & _ & _ & Hrep & _).
  destruct (Hrep eq_refl) as [Hh Hf].
  exists req'. split; [exact Hrun|]. split; [exact Hh|]. split; [exact Hf|exact Hlen].
Defined.

Lemma completeThumbnailPush_panics_without_channel_witness :
  ∃ req',
    completeThumbnailPush shortOfChannels = Panic (req', None)
    ∧ ThumbnailHash (filemeta req') = "01"%string
    ∧ sent req' = [(0%nat, doneBytes); (1%nat, doneBytes)].
Proof.
  assert (0 ≤ uploadMask shortOfChannels < 2 ^ 32) as Hmask by (cbn; lia).
  assert (uploadThumbCh shortOfChannels
          < length (setBits (uploadMask shortOfChannels)))%nat as Hch
    by (vm_compute; lia).
  eexists. split;
    [exact (completeThumbnailPush_panics_without_channel shortOfChannels
              Hmask eq_refl Hch)|].
  split; reflexivity.
Defined.


End ThumbnailMore.

(** ** More on the commit worker *)
Module CommitMore.
Import encryption blockchain Commit Worker CommitFixture CommitMoreFixture.


Section WorkerProofs.
Context `{Hasher} `{Deps}.

Lemma filter_worker_commute (ws : list (nat * string)) ch id id0 :
  filter (λ w, w.2 = id0) (filter (λ w, w ≠ (ch, id)) ws)
  = filter (λ w, w ≠ (ch, id)) (filter (λ w, w.2 = id0) ws).
Proof.
  rewrite !list_filter_filter. apply filter_agree. intros x _. tauto.
Qed.

Lemma loopState_deregister ch id p :
  loopState (deregister ch id p)
  = (delete id (loopState p).1.1, nextChan p,
     filter (λ w, w ≠ (ch, id)) (workers p)).
Proof.
  unfold loopState, deregister. cbn.
  destruct (commitChan p); cbn; [done|]. by rewrite delete_empty.
Qed.

Lemma worker_is_registered st ch id :
  poolInv st → (ch, id) ∈ st.2 → st.1.1 !! id = Some ch.
Proof.
  destruct st as [[m next] ws]. intros (Hone & Hnone & _) Hin. cbn in *.
  assert ((ch, id) ∈ filter (λ w : nat * string, w.2 = id) ws) as Hf
    by (by apply list_elem_of_filter).
  destruct (m !! id) as [ch'|] eqn:Hm.
  - destruct (Hone _ _ Hm) as [Heq _]. rewrite Heq in Hf.
    apply list_elem_of_singleton in Hf. congruence.
  - rewrite (Hnone _ Hm) in Hf. by apply elem_of_nil in Hf.
Qed.

Lemma deregister_inv p ch id :
  poolInv (loopState p) → (ch, id) ∈ workers p →
  poolInv (loopState (deregister ch id p)).
Proof.
  intros Hinv Hin.
  pose proof (worker_is_registered _ ch id Hinv Hin) as Hreg.
  rewrite loopState_deregister. destruct (loopState p) as [[m next] ws] eqn:Hls.
  assert (ws = workers p) as <- by (unfold loopState in Hls; congruence).
  assert (next = nextChan p) as <- by (unfold loopState in Hls; congruence).
  cbn in Hreg. destruct Hinv as (Hone & Hnone & Hinj). cbn.
  split; [|split].
  - intros id0 c0. rewrite lookup_delete. case_decide as Hid; [done|].
    intros Hm. destruct (Hone _ _ Hm) as [Hf Hlt]. split; [|done].
    rewrite filter_worker_commute, Hf.
    rewrite filter_cons_True, filter_nil; [done|]. cbn. congruence.
  - intros id0. rewrite lookup_delete, filter_worker_commute.
    case_decide as Hid.
    + subst id0. intros _. destruct (Hone _ _ Hreg) as [-> _].
      rewrite filter_cons_False, filter_nil; [done|]. by intros Hne.
    + intros Hm. by rewrite (Hnone _ Hm).
  - intros id1 id2 c. rewrite !lookup_delete. repeat case_decide; try done.
    apply Hinj.
Qed.

Lemma reachable_inv p : reachable p → poolInv (loopState p).
Proof.
  induction 1 as [|p bs _ IH|p ch id _ IH Hin].
  - apply CommitSpec.poolInv_empty.
  - rewrite CommitSpec.loopState_Init. by apply CommitSpec.fold_register_inv.
  - by apply deregister_inv.
Qed.

(** X6. After any series of initializer calls and worker exits, every
    registered node id has exactly one worker and that worker serves the
    registered queue, an id without a queue has no worker, no queue is
    shared, and the channel [AddCommitRequest] sends on is served by the one
    worker of the request's node. *)
Theorem registry_invariant_with_worker_exits p :
  reachable p →
  (∀ id ch, queueOf p id = Some ch → workersOf p id = [(ch, id)])
  ∧ (∀ id, queueOf p id = None → workersOf p id = [])
  ∧ (∀ id1 id2 ch, queueOf p id1 = Some ch → queueOf p id2 = Some ch → id1 = id2)
  ∧ (∀ req ch, AddCommitRequest req p = Some ch →
       workersOf p (ID (blobber req)) = [(ch, ID (blobber req))]).
Proof.
  intros Hp. apply reachable_inv in Hp. unfold AddCommitRequest, workersOf.
  assert (∀ id, queueOf p id = (loopState p).1.1 !! id) as Hq
    by apply CommitSpec.queueOf_loopState.
  destruct (loopState p) as [[m next] ws] eqn:Hls.
  assert (ws = workers p) as <- by (unfold loopState in Hls; congruence).
  destruct Hp as (Hone & Hnone & Hinj). cbn in Hq.
  split; [|split; [|split]].
  - intros id ch. rewrite Hq. intros Hm. by destruct (Hone _ _ Hm).
  - intros id. rewrite Hq. apply Hnone.
  - intros id1 id2 ch. rewrite !Hq. apply Hinj.
  - intros req ch. rewrite Hq. intros Hm. by destruct (Hone _ _ Hm).
Qed.

(** X7. When the worker of a node returns, its queue having been closed,
    that node and only that node loses its queue and its worker, and
    [AddCommitRequest] for it finds the nil channel; registering the node
    again gives it a new queue, different from the closed one, and one
    worker. *)
Theorem worker_exit_frees_the_node queue rs p p1 ch id :
  reachable p → (ch, id) ∈ workers p →
  startCommitWorker queue true ch id p = (rs, Exited p1) →
  queueOf p1 id = None
  ∧ workersOf p1 id = []
  ∧ (∀ id0, id0 ≠ id → queueOf p1 id0 = queueOf p id0
                       ∧ workersOf p1 id0 = workersOf p id0)
  ∧ (∀ req, ID (blobber req) = id → AddCommitRequest req p1 = None)
  ∧ (∀ b, ID b = id →
       queueOf (InitCommitWorker [b] p1) id = Some (nextChan p)
       ∧ nextChan p ≠ ch
       ∧ workersOf (InitCommitWorker [b] p1) id = [(nextChan p, id)]).
Proof.
  intros Hp Hin Hrun.
  assert (p1 = deregister ch id p) as ->.
  { unfold startCommitWorker in Hrun.
    destruct (workerLoop queue) as [rs' [|]]; by injection Hrun. }
  pose proof (reachable_inv _ Hp) as Hinv.
  pose proof (worker_is_registered _ ch id Hinv Hin) as Hreg.
  pose proof (deregister_inv _ _ _ Hinv Hin) as Hinv1.
  assert (∀ q i, queueOf q i = (loopState q).1.1 !! i) as Hq
    by apply CommitSpec.queueOf_loopState.
  assert (queueOf (deregister ch id p) id = None) as Hnone.
  { rewrite Hq, loopState_deregister. cbn. apply lookup_delete_eq. }
  assert (ch < nextChan p)%nat as Hlt.
  { destruct (loopState p) as [[m next] ws] eqn:Hls.
    assert (next = nextChan p) as <- by (unfold loopState in Hls; congruence).
    destruct Hinv as (Hone & _). cbn in Hreg. by destruct (Hone _ _ Hreg). }
  split; [done|]. split; [|split; [|split]].
  - unfold workersOf. rewrite Hq in Hnone.
    destruct (loopState (deregister ch id p)) as [[m next] ws] eqn:Hls.
    assert (ws = workers (deregister ch id p)) as <-
      by (unfold loopState in Hls; congruence).
    destruct Hinv1 as (_ & Hno & _). by apply Hno.
  - intros id0 Hne. split.
    + rewrite !Hq, loopState_deregister. cbn. by apply lookup_delete_ne.
    + unfold workersOf, deregister. cbn. rewrite filter_worker_commute.
      apply filter_all. intros w Hw.
      apply list_elem_of_filter in Hw as [Hw _]. intros ->. by cbn in Hw.
  - intros req <-. done.
  - intros b Hb.
    assert (loopState (InitCommitWorker [b] (deregister ch id p))
            = (<[id := nextChan p]> (delete id (loopState p).1.1),
               S (nextChan p),
               filter (λ w, w ≠ (ch, id)) (workers p) ++ [(nextChan p, id)]))
      as Hls.
    { rewrite CommitSpec.loopState_Init, loopState_deregister. cbn.
      rewrite Hb, lookup_delete_eq. done. }
    split; [|split; [lia|]].
    + rewrite Hq, Hls. cbn. apply lookup_insert_eq.
    + pose proof (CommitSpec.fold_register_inv [b] _ Hinv1) as Hinv2.
      rewrite <- CommitSpec.loopState_Init, Hls in Hinv2.
      destruct Hinv2 as (Hone & _).
      destruct (Hone id (nextChan p)) as [Hf _]; [apply lookup_insert_eq|].
      unfold workersOf.
      assert (workers (InitCommitWorker [b] (deregister ch id p))
              = filter (λ w, w ≠ (ch, id)) (workers p) ++ [(nextChan p, id)])
        as -> by (pose proof Hls as Hls'; unfold loopState at 1 in Hls';
                  by injection Hls').
      done.
Qed.

End WorkerProofs.

Section CommitRuns.
Context `{Hasher} `{Deps}.




Lemma commitBlobber_calls w req rootRef latestWM size :
  let '(e, calls) := commitBlobber w req rootRef latestWM size in
  (calls = [] ∧ is_Some e)
  ∨ (∃ httpreq wm, calls = [CallCommit httpreq wm]
                   ∧ e = commitCallback (commitReply w)).
Proof.
  unfold commitBlobber.
  destruct (Sign _); [|left; by eauto].
  destruct (MarshalWriteMarker _); [|left; by eauto].
  destruct (NewCommitRequest _ _ _); [|left; by eauto].
  right. by eauto.
Qed.

Lemma applyAndCommit_shape w commitreq latestWM rootRef calls :
  ∃ r calls',
    applyAndCommit w commitreq latestWM rootRef calls
    = Done (finish commitreq r, calls ++ calls')
    ∧ ((calls' = [] ∧ ∃ msg, r = ErrorCommitResult msg)
       ∨ (∃ httpreq wm, calls' = [CallCommit httpreq wm]
            ∧ r = match commitCallback (commitReply w) with
                  | Some e => ErrorCommitResult e
                  | None => SuccessCommitResult
                  end)).
Proof.
  unfold applyAndCommit.
  destruct (applyChanges _ _ _) as [[mutated [e|]] size].
  - exists (ErrorCommitResult e), []. rewrite app_nil_r. split; [done|].
    left. by eauto.
  - pose proof (commitBlobber_calls w commitreq mutated latestWM size) as Hcb.
    destruct (commitBlobber _ _ _ _ _) as [e calls'].
    destruct Hcb as [[-> [msg ->]]|(httpreq & wm & -> & ->)].
    + exists (ErrorCommitResult msg), []. split; [done|]. left. by eauto.
    + destruct (commitCallback (commitReply w)) as [e|] eqn:Hcc.
      * exists (ErrorCommitResult e), [CallCommit httpreq wm].
        split; [done|]. right. by exists httpreq, wm.
      * exists SuccessCommitResult, [CallCommit httpreq wm].
        split; [done|]. right. by exists httpreq, wm.
Qed.

(** Every run of [processCommit], in one of four shapes. *)
Lemma processCommit_shape w commitreq :
  processCommit w commitreq = Done (commitreq, [])
  ∨ (∃ fetch,
       NewReferencePathRequest (Baseurl (blobber commitreq))
         (allocationID commitreq) (affectedPath (changes commitreq)) = inl fetch
       ∧ (processCommit w commitreq = Panic (commitreq, [CallReferencePath fetch])
          ∨ (∃ msg, processCommit w commitreq
                    = Done (finish commitreq (ErrorCommitResult msg),
                            [CallReferencePath fetch]))
          ∨ (∃ httpreq wm,
               processCommit w commitreq
               = Done (finish commitreq
                         match commitCallback (commitReply w) with
                         | Some e => ErrorCommitResult e
                         | None => SuccessCommitResult
                         end,
                       [CallReferencePath fetch; CallCommit httpreq wm])))).
Proof.
  unfold processCommit.
  destruct (NewReferencePathRequest _ _ _) as [fetch|]; [|by left].
  destruct (String.length _ =? 0)%nat; [by left|].
  right. exists fetch. split; [done|].
  assert (∀ latestWM rootRef,
    (∃ msg, applyAndCommit w commitreq latestWM rootRef [CallReferencePath fetch]
            = Done (finish commitreq (ErrorCommitResult msg),
                    [CallReferencePath fetch]))
    ∨ (∃ httpreq wm,
         applyAndCommit w commitreq latestWM rootRef [CallReferencePath fetch]
         = Done (finish commitreq
                   match commitCallback (commitReply w) with
                   | Some e => ErrorCommitResult e
                   | None => SuccessCommitResult
                   end,
                 [CallReferencePath fetch; CallCommit httpreq wm]))) as Hstep.
  { intros latestWM rootRef.
    destruct (applyAndCommit_shape w commitreq latestWM rootRef
                [CallReferencePath fetch])
      as (r & calls' & -> & [[-> [msg ->]]|(httpreq & wm & -> & ->)]).
    - left. by exists msg.
    - right. by exists httpreq, wm. }
  destruct (refPathCallback _) as [lR|e]; [|right; left; by eauto].
  destruct (LatestWM lR) as [prior|].
  - destruct (VerifySignature _ _); [right; left; by eauto|].
    destruct (GetDirTree _ _) as [t|]; [|by left]. cbn zeta.
    destruct (negb _); [right; left; by eauto|]. right. apply Hstep.
  - destruct (GetDirTree _ _) as [t|]; [|right; left; by eauto].
    right. apply Hstep.
Qed.

(** X9. However a commit attempt ends, a panic included, it has made no
    network call, or the reference-path fetch alone, or the fetch followed by
    one submission; it has not touched the batch, the node or the ids of the
    request; and it has either left the request as it was or stored a result
    and called [Done] once. *)
Theorem processCommit_network_discipline w commitreq req' calls :
  endOf (processCommit w commitreq) = Some (req', calls) →
  (calls = []
   ∨ ∃ fetch,
       NewReferencePathRequest (Baseurl (blobber commitreq))
         (allocationID commitreq) (affectedPath (changes commitreq)) = inl fetch
       ∧ (calls = [CallReferencePath fetch]
          ∨ ∃ httpreq wm, calls = [CallReferencePath fetch; CallCommit httpreq wm]))
  ∧ changes req' = changes commitreq
  ∧ blobber req' = blobber commitreq
  ∧ allocationID req' = allocationID commitreq
  ∧ connectionID req' = connectionID commitreq
  ∧ (req' = commitreq ∨ (wg req' = S (wg commitreq) ∧ is_Some (result req'))).
Proof.
  intros Hend.
  destruct (processCommit_shape w commitreq)
    as [Hr|(fetch & Hf & [Hr|[[msg Hr]|(httpreq & wm & Hr)]])];
    rewrite Hr in Hend; injection Hend as <- <-.
  - repeat split; by left.
  - split; [right; exists fetch; split; [done|by left]|].
    repeat split; by left.
  - split; [right; exists fetch; split; [done|by left]|].
    repeat split; right; by eauto.
  - split; [right; exists fetch; split; [done|right; by eauto]|].
    repeat split; right; by eauto.
Qed.

(** X10. For a request whose result slot is empty, the attempt stores the
    success result exactly when it has submitted a marker after the fetch and
    the node has answered the submission with status 200 and a readable
    body. *)
Theorem success_only_when_node_accepts w commitreq req' calls :
  result commitreq = None →
  processCommit w commitreq = Done (req', calls) →
  result req' = Some SuccessCommitResult
  ↔ ∃ fetch httpreq wm body,
      calls = [CallReferencePath fetch; CallCommit httpreq wm]
      ∧ commitReply w = Reply StatusOK (inl body).
Proof.
  intros Hfresh Hrun.
  assert (∀ e, commitCallback (commitReply w) = Some e →
            ¬ ∃ body, commitReply w = Reply StatusOK (inl body)) as Hrej.
  { intros e He [body Hb]. rewrite Hb in He. done. }
  assert (commitCallback (commitReply w) = None →
            ∃ body, commitReply w = Reply StatusOK (inl body)) as Hacc.
  { unfold commitCallback. destruct (commitReply w) as [e|status [body|e]];
      try done.
    destruct (Z.eqb_spec status StatusOK) as [->|]; [|done]. by eauto. }
  destruct (processCommit_shape w commitreq)
    as [Hr|(fetch & Hf & [Hr|[[msg Hr]|(httpreq & wm & Hr)]])];
    rewrite Hr in Hrun; try done; injection Hrun as <- <-.
  - rewrite Hfresh. split; [done|]. by intros (? & ? & ? & ? & ? & _).
  - cbn. split; [done|]. by intros (? & ? & ? & ? & ? & _).
  - cbn. destruct (commitCallback (commitReply w)) as [e|] eqn:Hcc.
    + split; [done|]. intros (? & ? & ? & body & _ & Hb).
      destruct (Hrej e eq_refl). by eauto.
    + split; [|done]. intros _. destruct (Hacc eq_refl) as [body Hb].
      by exists fetch, httpreq, wm, body.
Qed.


(** X12. When the signature of the reported marker does not verify, the
    attempt ends with the verifier's error in the result slot and the fetch
    as its only network call, whatever the tree and the allocation root of
    the marker are. *)
Theorem bad_signature_aborts_before_tree_is_read w commitreq fetch lR prior e :
  NewReferencePathRequest (Baseurl (blobber commitreq))
    (allocationID commitreq) (affectedPath (changes commitreq)) = inl fetch →
  affectedPath (changes commitreq) ≠ ""%string →
  refPathCallback (refPathReply w) = inl lR →
  LatestWM lR = Some prior →
  VerifySignature prior GetClientPublicKey = Some e →
  processCommit w commitreq
  = Done (finish commitreq (ErrorCommitResult e), [CallReferencePath fetch]).
Proof.
  intros Hreq Hpath HlR Hprior Hsig. unfold processCommit. rewrite Hreq.
  destruct (affectedPath (changes commitreq)) as [|a s] eqn:Hp; [done|].
  cbn [String.length Nat.eqb]. by rewrite HlR, Hprior, Hsig.
Qed.

(** X13. When a marker has been submitted and the node answers with a
    status other than 200, the request ends with the error
    [NewError("commit_error", body)] that carries the body of the answer. *)
Theorem rejected_commit_reports_node_body w commitreq req' calls httpreq wm
    status body :
  processCommit w commitreq = Done (req', calls) →
  CallCommit httpreq wm ∈ calls →
  commitReply w = Reply status (inl body) →
  status ≠ StatusOK →
  req' = finish commitreq (ErrorCommitResult (NewError "commit_error" body)).
Proof.
  intros Hrun Hin Hreply Hstatus.
  assert (commitCallback (commitReply w) = Some (NewError "commit_error" body))
    as Hcc.
  { rewrite Hreply. cbn. by destruct (Z.eqb_spec status StatusOK). }
  destruct (processCommit_shape w commitreq)
    as [Hr|(fetch & Hf & [Hr|[[msg Hr]|(httpreq' & wm' & Hr)]])];
    rewrite Hr in Hrun; try done; injection Hrun as <- <-.
  - by apply elem_of_nil in Hin.
  - apply list_elem_of_singleton in Hin. done.
  - by rewrite Hcc.
Qed.

(** X14. When the reference-path fetch fails, the attempt stores an error
    and submits nothing.  The message is the transport or read error, the
    decoding error, or, for a status other than 200, the text
    "List error response: Status: <status> - <body> ". *)
Theorem failed_fetch_is_reported_without_submission w commitreq fetch :
  NewReferencePathRequest (Baseurl (blobber commitreq))
    (allocationID commitreq) (affectedPath (changes commitreq)) = inl fetch →
  affectedPath (changes commitreq) ≠ ""%string →
  (∀ body, refPathReply w = Reply StatusOK (inl body) →
           ∃ e, UnmarshalReferencePath body = inr e) →
  ∃ msg,
    processCommit w commitreq
    = Done (finish commitreq (ErrorCommitResult msg), [CallReferencePath fetch])
    ∧ match refPathReply w with
      | TransportError e => msg = e
      | Reply status (inr e) => msg = e
      | Reply status (inl body) =>
          if status =? StatusOK then UnmarshalReferencePath body = inr msg
          else msg = ("List error response: Status: " +:+ FormatInt status
                      +:+ " - " +:+ body +:+ " ")%string
      end.
Proof.
  intros Hreq Hpath Hbad. unfold processCommit. rewrite Hreq.
  destruct (affectedPath (changes commitreq)) as [|a s] eqn:Hp; [done|].
  cbn [String.length Nat.eqb]. unfold refPathCallback.
  destruct (refPathReply w) as [e|status [body|e]]; [by eauto| |by eauto].
  destruct (Z.eqb_spec status StatusOK) as [->|Hne]; cbn [negb].
  - destruct (Hbad body eq_refl) as [e He]. rewrite He. by eauto.
  - by eauto.
Qed.

End CommitRuns.



Lemma processCommit_network_discipline_witness :
  ∃ fetch httpreq wm,
    NewReferencePathRequest "http://b1" "alloc" "/a" = inl fetch
    ∧ [fetchCall; submitCall marker1]
      = [CallReferencePath fetch; CallCommit httpreq wm].
Proof.
  destruct (@processCommit_network_discipline fixtureHasher deps (world 100 "fresh")
              (request [setHash "r1" 10])
              (finish (request [setHash "r1" 10]) SuccessCommitResult)
              [fetchCall; submitCall marker1])
    as ([Hnil|(fetch & Hf & [Hone|(httpreq & wm & Htwo)])] & _).
  - vm_compute. reflexivity.
  - discriminate Hnil.
  - discriminate Hone.
  - exists fetch, httpreq, wm. split; [exact Hf|exact Htwo].
Defined.

Lemma success_only_when_node_accepts_witness :
  ∃ body, commitReply (world 100 "fresh") = Reply StatusOK (inl body).
Proof.
  destruct (@success_only_when_node_accepts fixtureHasher deps (world 100 "fresh")
              (request [setHash "r1" 10])
              (finish (request [setHash "r1" 10]) SuccessCommitResult)
              [fetchCall; submitCall marker1]
              eq_refl) as [Hto _].
  - vm_compute. reflexivity.
  - destruct (Hto eq_refl) as (_ & _ & _ & body & _ & Hb). exists body. exact Hb.
Defined.

Example marker_without_tree_panics :
  @processCommit fixtureHasher strictDeps (world 100 "fileroot")
    (request [setHash "r2" 3])
  = Panic (request [setHash "r2" 3],
           [@CallReferencePath strictDeps
              "http://b1/referencepath/alloc?path=/a"%string]).
Proof. vm_compute. reflexivity. Qed.

Lemma bad_signature_aborts_before_tree_is_read_witness :
  processCommit (world 200 "tampered") (request [setHash "r2" 3])
  = Done (finish (request [setHash "r2" 3])
            (ErrorCommitResult "signature_mismatch"), [fetchCall]).
Proof.
  exact (@bad_signature_aborts_before_tree_is_read fixtureHasher deps (world 200 "tampered")
           (request [setHash "r2" 3])
           fetchRequest
           {| refPath := tree "r1"; LatestWM := Some tamperedMarker |}
           tamperedMarker "signature_mismatch"%string
           eq_refl ltac:(vm_compute; discriminate) eq_refl eq_refl eq_refl).
Defined.

Lemma rejected_commit_reports_node_body_witness :
  ∃ req' calls,
    processCommit rejectingWorld (request [setHash "r1" 10]) = Done (req', calls)
    ∧ result req' = Some (ErrorCommitResult "commit_error: invalid marker")
    ∧ length calls = 2%nat.
Proof.
  assert (∃ req' calls httpreq wm,
            processCommit rejectingWorld (request [setHash "r1" 10])
            = Done (req', calls)
            ∧ CallCommit httpreq wm ∈ calls ∧ length calls = 2%nat)
    as (req' & calls & httpreq & wm & Hrun & Hin & Hlen).
  { do 4 eexists. split; [vm_compute; reflexivity|]. split; [right; left|done]. }
  pose proof (@rejected_commit_reports_node_body fixtureHasher deps rejectingWorld
                (request [setHash "r1" 10]) req' calls httpreq wm 500
                "invalid marker"%string Hrun Hin eq_refl ltac:(discriminate))
    as Hreq.
  exists req', calls. split; [exact Hrun|]. split; [|exact Hlen].
  rewrite Hreq. reflexivity.
Defined.

Lemma failed_fetch_is_reported_without_submission_witness :
  processCommit lostWorld (request [setHash "r1" 10])
  = Done (finish (request [setHash "r1" 10])
            (ErrorCommitResult "List error response: Status: 404 - not found "),
          [fetchCall]).
Proof.
  destruct (@failed_fetch_is_reported_without_submission fixtureHasher deps lostWorld
              (request [setHash "r1" 10])
              fetchRequest
              eq_refl ltac:(vm_compute; discriminate))
    as (msg & Hrun & Hmsg).
  - intros body Hb. discriminate Hb.
  - cbn in Hmsg. rewrite Hrun, Hmsg. reflexivity.
Defined.

Lemma reachable_after_exit : reachable (deregister 0 "b1" twoNodes).
Proof.
  apply reachable_exit; [apply reachable_init, reachable_empty|].
  vm_compute. left.
Qed.

Lemma registry_invariant_with_worker_exits_witness :
  queueOf (deregister 0 "b1" twoNodes) "b1" = None
  ∧ workersOf (deregister 0 "b1" twoNodes) "b1" = []
  ∧ workersOf (deregister 0 "b1" twoNodes) "b2" = [(1%nat, "b2"%string)].
Proof.
  destruct (@registry_invariant_with_worker_exits
              (deregister 0 "b1" twoNodes) reachable_after_exit)
    as (Hone & Hnone & _).
  split; [reflexivity|]. split; [exact (Hnone "b1"%string eq_refl)|].
  exact (Hone "b2"%string 1%nat eq_refl).
Defined.

Lemma worker_exit_frees_the_node_witness :
  ∃ p1,
    startCommitWorker [(world 100 "fresh", request [setHash "r1" 10])] true
      0 "b1" twoNodes
    = ([(finish (request [setHash "r1" 10]) SuccessCommitResult,
         [fetchCall; submitCall marker1])],
       Exited p1)
    ∧ queueOf p1 "b1" = None
    ∧ queueOf (InitCommitWorker [fixtureNode "b1"] p1) "b1" = Some 2%nat.
Proof.
  assert (reachable twoNodes) as Hp by (apply reachable_init, reachable_empty).
  assert ((0%nat, "b1"%string) ∈ workers twoNodes) as Hin by (vm_compute; left).
  eexists. split; [vm_compute; reflexivity|].
  destruct (@worker_exit_frees_the_node fixtureHasher deps
              [(world 100 "fresh", request [setHash "r1" 10])]
              [(finish (request [setHash "r1" 10]) SuccessCommitResult,
                [fetchCall; submitCall marker1])] twoNodes
              (deregister 0 "b1" twoNodes) 0%nat "b1"%string Hp Hin)
    as (Hnone & _ & _ & _ & Hre).
  - vm_compute. reflexivity.
  - split; [exact Hnone|].
    destruct (Hre (fixtureNode "b1") eq_refl) as (Hq & _). exact Hq.
Defined.


End CommitMore.

(** ** More on the list worker *)
Module ListingMore.
Import encryption blockchain Listing ListingTerms ListingFixture
  ListingMoreFixture.

Section MergeFacts.
Context `{Hasher} `{Deps}.

Lemma mergeResponse_usable req st ti :
  mergeResponse req st ti
  = match usableTree ti with
    | Some root => mergeTree req st root
    | None => st
    end.
Proof.
  unfold mergeTree, mergeResponse, usableTree.
  destruct (err ti); [done|]. by destruct (ref ti).
Qed.

Lemma fold_mergeResponse_trees req lR : ∀ st,
  fold_left (mergeResponse req) lR st
  = fold_left (mergeTree req) (omap usableTree lR) st.
Proof.
  induction lR as [|ti lR IH]; intros st; [done|].
  cbn [fold_left omap list_omap]. rewrite mergeResponse_usable.
  destruct (usableTree ti) as [root|]; cbn [fold_left]; apply IH.
Qed.

Lemma seenChildren_trees lR :
  seenChildren lR = flat_map fileref.Children (omap usableTree lR).
Proof.
  induction lR as [|ti lR IH]; [done|].
  unfold seenChildren in *. cbn [flat_map omap list_omap].
  rewrite IH. unfold usableTree.
  destruct (err ti); [done|]. by destruct (ref ti).
Qed.

(** X15. Responses that carry an error or no tree leave no trace in the
    merge: the merged state is that of the usable responses alone. *)
Theorem failed_responses_are_ignored req lR :
  mergeResponses req lR
  = mergeResponses req (filter (λ ti, is_Some (usableTree ti)) lR).
Proof.
  unfold mergeResponses. rewrite !fold_mergeResponse_trees. f_equal.
  induction lR as [|ti lR IH]; [done|].
  rewrite filter_cons. cbn [omap list_omap].
  destruct (usableTree ti) as [root|] eqn:Hu.
  - rewrite decide_True by done. cbn [omap list_omap]. by rewrite Hu, IH.
  - rewrite decide_False by (by intros [? ?]). done.
Qed.

(** *** The records *)

Lemma agreeing_snoc k cs c :
  agreeing k (cs ++ [c])
  = agreeing k cs ++ (if decide (actualHash c = k) then [c] else []).
Proof.
  unfold agreeing. by rewrite filter_app.
Qed.

Lemma accumulate_snoc req cs c :
  accumulate req (cs ++ [c])
  = Some (countChild (default (newChildResult req c) (accumulate req cs)) c).
Proof.
  destruct cs as [|c0 cs]; [done|]. cbn [accumulate app default].
  change (c0 :: cs ++ [c]) with ((c0 :: cs) ++ [c]). by rewrite fold_left_app.
Qed.

Lemma mergeChild_map req st child :
  childResultMap (mergeChild req st child)
  = <[actualHash child :=
        countChild (default (newChildResult req child)
                      (childResultMap st !! actualHash child)) child]>
      (childResultMap st).
Proof.
  unfold mergeChild.
  assert (match childResultMap st !! actualHash child with
          | Some r => r
          | None => newChildResult req child
          end
          = default (newChildResult req child)
              (childResultMap st !! actualHash child)) as ->
    by (by destruct (childResultMap st !! actualHash child)).
  destruct (isConsensusMin _); [|done].
  by destruct (selected st !! fileref.GetPath child).
Qed.

Lemma fold_mergeChild_records req cs : ∀ st done,
  (∀ k, childResultMap st !! k = accumulate req (agreeing k done)) →
  ∀ k, childResultMap (fold_left (mergeChild req) cs st) !! k
       = accumulate req (agreeing k (done ++ cs)).
Proof.
  induction cs as [|c cs IH]; intros st done Hst k.
  - by rewrite app_nil_r.
  - cbn [fold_left]. replace (done ++ c :: cs) with ((done ++ [c]) ++ cs)
      by (by rewrite <- app_assoc).
    apply IH. clear k. intros k. rewrite mergeChild_map, agreeing_snoc.
    rewrite lookup_insert. case_decide as Hk.
    + subst k. by rewrite accumulate_snoc, Hst.
    + by rewrite app_nil_r.
Qed.

Lemma addChildBlocks_map st :
  childResultMap (addChildBlocks st) = childResultMap st.
Proof. done. Qed.

Lemma fold_mergeTree_records req trees : ∀ st done,
  (∀ k, childResultMap st !! k = accumulate req (agreeing k done)) →
  ∀ k, childResultMap (fold_left (mergeTree req) trees st) !! k
       = accumulate req (agreeing k (done ++ flat_map fileref.Children trees)).
Proof.
  induction trees as [|root trees IH]; intros st done Hst k.
  - cbn. by rewrite app_nil_r.
  - cbn [fold_left flat_map]. rewrite app_assoc. apply IH. clear k. intros k.
    unfold mergeTree, mergeResponse. cbn [err ref].
    rewrite addChildBlocks_map. by apply fold_mergeChild_records.
Qed.

Lemma record_lookup req lR k :
  childResultMap (mergeResponses req lR) !! k
  = accumulate req (agreeing k (seenChildren lR)).
Proof.
  unfold mergeResponses. rewrite fold_mergeResponse_trees, seenChildren_trees.
  apply (fold_mergeTree_records req _ initialState []).
  intros k'. cbn. apply lookup_empty.
Qed.

(** X16. The record kept under an identity key is what counting the
    children with that key, in the order they were seen, gives from a fresh
    record for the first of them; there is a record exactly for the keys that
    were seen.  So a record depends neither on the other children nor on how
    the children are spread over the responses. *)
Theorem record_is_accumulated_from_agreeing_children req lR k :
  childResultMap (mergeResponses req lR) !! k
  = accumulate req (agreeing k (seenChildren lR)).
Proof. apply record_lookup. Qed.

Lemma fold_countChild_fields cs : ∀ r0,
  let r := fold_left countChild cs r0 in
  consensus (cons r) = consensus (cons r0) + Z.of_nat (length cs)
  ∧ consensusThresh (cons r) = consensusThresh (cons r0)
  ∧ fullconsensus (cons r) = fullconsensus (cons r0)
  ∧ Name r = Name r0 ∧ Path r = Path r0 ∧ Type_ r = Type_ r0
  ∧ NumBlocks r
    = fold_left (λ n b, wrap64 (n + b)) (map fileref.GetNumBlocks cs) (NumBlocks r0)
  ∧ Size r
    = fold_left (λ n c, match c with
                        | fileref.FileRef _ _ _ _ size _ _ => wrap64 (n + size)
                        | fileref.DirRef _ _ _ _ _ => n
                        end) cs (Size r0).
Proof.
  induction cs as [|c cs IH]; intros r0.
  - cbn. repeat split; lia.
  - cbn [fold_left length map]. destruct (IH (countChild r0 c))
      as (Hc & Ht & Hf & Hn & Hp & Hty & Hb & Hs).
    cbn zeta in *. rewrite Hc, Ht, Hf, Hn, Hp, Hty, Hb, Hs.
    destruct c; cbn; repeat split; lia.
Qed.

Lemma fold_sizes cs : ∀ n,
  - 2 ^ 63 ≤ n < 2 ^ 63 →
  fold_left (λ n c, match c with
                    | fileref.FileRef _ _ _ _ size _ _ => wrap64 (n + size)
                    | fileref.DirRef _ _ _ _ _ => n
                    end) cs n
  = fold_left (λ n b, wrap64 (n + b)) (map sizeOf cs) n.
Proof.
  induction cs as [|c cs IH]; intros n Hn; [done|].
  cbn [fold_left map]. destruct c; cbn [sizeOf].
  - rewrite Z.add_0_r, (wrap64_small n) by done. by apply IH.
  - apply IH, wrap64_range.
Qed.

(** X17. The agreement counter of a record is the number of children seen
    with its key, its thresholds are those of the request, its name, path
    and type are those of the first such child, and its block count and size
    are the 64-bit sums over all of them: a file reported by three nodes with
    size 5 has size 15. *)
Theorem counter_counts_agreeing_children req lR k r :
  childResultMap (mergeResponses req lR) !! k = Some r →
  ∃ c cs,
    agreeing k (seenChildren lR) = c :: cs
    ∧ consensus (cons r) = Z.of_nat (length (c :: cs))
    ∧ consensusThresh (cons r) = consensusThresh (reqCons req)
    ∧ fullconsensus (cons r) = fullconsensus (reqCons req)
    ∧ Name r = fileref.GetName c ∧ Path r = fileref.GetPath c
    ∧ Type_ r = fileref.GetType c
    ∧ NumBlocks r = sum64 (map fileref.GetNumBlocks (c :: cs))
    ∧ Size r = sum64 (map sizeOf (c :: cs)).
Proof.
  rewrite record_lookup.
  destruct (agreeing k (seenChildren lR)) as [|c cs]; [done|].
  cbn [accumulate]. intros [= <-]. exists c, cs. split; [done|].
  destruct (fold_countChild_fields (c :: cs) (newChildResult req c))
    as (Hc & Ht & Hf & Hn & Hp & Hty & Hb & Hs).
  cbn zeta in *.
  split; [etrans; [exact Hc|cbn; lia]|].
  split; [exact Ht|]. split; [exact Hf|]. split; [exact Hn|].
  split; [exact Hp|]. split; [exact Hty|]. split; [exact Hb|].
  etrans; [exact Hs|]. apply fold_sizes. cbn. lia.
Qed.

End MergeFacts.

Section MergeFacts2.
Context `{Hasher} `{Deps}.

(** *** The root of the listing *)

Lemma mergeChild_root req st child :
  let r := result st in
  let r' := result (mergeChild req st child) in
  Name r' = Name r ∧ Path r' = Path r ∧ Type_ r' = Type_ r
  ∧ Size r' = Size r ∧ NumBlocks r' = NumBlocks r.
Proof.
  unfold mergeChild. destruct (isConsensusMin _); [|done].
  by destruct (selected st !! fileref.GetPath child).
Qed.

Lemma fold_mergeChild_root req cs : ∀ st,
  let r := result st in
  let r' := result (fold_left (mergeChild req) cs st) in
  Name r' = Name r ∧ Path r' = Path r ∧ Type_ r' = Type_ r
  ∧ Size r' = Size r ∧ NumBlocks r' = NumBlocks r.
Proof.
  induction cs as [|c cs IH]; intros st; [done|].
  cbn [fold_left]. destruct (IH (mergeChild req st c)) as (-> & -> & -> & -> & ->).
  apply mergeChild_root.
Qed.

Lemma mergeTree_root req st root :
  let r' := result (mergeTree req st root) in
  Name r' = fileref.Name root ∧ Path r' = fileref.Path root
  ∧ Type_ r' = fileref.Type_ root
  ∧ (fileref.Type_ root = fileref.DIRECTORY → Size r' = -1)
  ∧ (fileref.Type_ root ≠ fileref.DIRECTORY → Size r' = Size (result st)).
Proof.
  unfold mergeTree, mergeResponse. cbn [err ref]. unfold addChildBlocks.
  cbn [result set_NumBlocks Name Path Type_ Size].
  match goal with |- context [fold_left (mergeChild req) ?cs ?s] =>
    destruct (fold_mergeChild_root req cs s) as (-> & -> & -> & -> & _) end.
  cbn [result setRoot Name Path Type_ Size]. repeat split.
  - intros ->. done.
  - intros Hne. destruct (String.eqb_spec (fileref.Type_ root) fileref.DIRECTORY);
      [done|done].
Qed.

(** X18. The name, path and type of the merged listing are those of the
    last usable response, with no quorum; its size is -1 when that root is a
    directory. *)
Theorem root_is_taken_from_last_usable_response req pre ti post root :
  usableTree ti = Some root →
  Forall (λ t, usableTree t = None) post →
  let r := result (mergeResponses req (pre ++ ti :: post)) in
  Name r = fileref.Name root ∧ Path r = fileref.Path root
  ∧ Type_ r = fileref.Type_ root
  ∧ (fileref.Type_ root = fileref.DIRECTORY → Size r = -1).
Proof.
  intros Hti Hpost. unfold mergeResponses.
  rewrite fold_mergeResponse_trees, omap_app. cbn [omap list_omap].
  rewrite Hti.
  assert (omap usableTree post = []) as ->.
  { induction Hpost as [|t post Ht _ IH]; [done|].
    cbn [omap list_omap]. by rewrite Ht. }
  rewrite fold_left_app. cbn [fold_left].
  destruct (mergeTree_root req
              (fold_left (mergeTree req) (omap usableTree pre) initialState) root)
    as (Hn & Hp & Ht & Hs & _).
  done.
Qed.

(** *** The block count of the root *)

Lemma fold_left_map_blocks st keys n :
  fold_left (λ n key, wrap64 (n + NumBlocks (deref st key))) keys n
  = fold_left (λ n b, wrap64 (n + b)) (map NumBlocks (map (deref st) keys)) n.
Proof.
  revert n. induction keys as [|k keys IH]; intros n; [done|]. cbn. apply IH.
Qed.

(** Every usable response adds the block counts of all the children promoted
    so far, those of earlier responses included, to the total it finds. *)
Lemma mergeTree_NumBlocks req st root :
  let st' := mergeTree req st root in
  NumBlocks (result st')
  = fold_left (λ n b, wrap64 (n + b)) (map NumBlocks (promoted st'))
      (NumBlocks (result st)).
Proof.
  unfold mergeTree, mergeResponse. cbn [err ref].
  set (st2 := fold_left (mergeChild req) (fileref.Children root) _).
  cbn zeta. unfold promoted.
  assert (∀ k, deref (addChildBlocks st2) k = deref st2 k) as Hd by done.
  rewrite (map_ext _ _ Hd).
  unfold addChildBlocks at 1 2. cbn [result set_NumBlocks NumBlocks Children].
  rewrite fold_left_map_blocks. f_equal. subst st2.
  destruct (fold_mergeChild_root req (fileref.Children root)
              {| result := setRoot (result st) root; selected := selected st;
                 childResultMap := childResultMap st |}) as (_ & _ & _ & _ & ->).
  done.
Qed.

(** X19. With exactly one usable response, the block count of the merged
    listing is the 64-bit sum of the block counts of the promoted children. *)
Theorem root_blocks_with_one_usable_response req lR root :
  omap usableTree lR = [root] →
  let st := mergeResponses req lR in
  NumBlocks (result st) = sum64 (map NumBlocks (promoted st)).
Proof.
  intros Hone. unfold mergeResponses.
  rewrite fold_mergeResponse_trees, Hone. cbn [fold_left].
  apply (mergeTree_NumBlocks req initialState root).
Qed.

(** *** The links between the three variables *)

Lemma mergeChild_links req st child :
  (∀ k, k ∈ Children (result st) → is_Some (childResultMap st !! k)) →
  length (Children (result st)) = size (selected st) →
  (∀ p k, selected st !! p = Some k → k ∈ Children (result st)) →
  let st' := mergeChild req st child in
  (∀ k, k ∈ Children (result st') → is_Some (childResultMap st' !! k))
  ∧ length (Children (result st')) = size (selected st')
  ∧ (∀ p k, selected st' !! p = Some k → k ∈ Children (result st')).
Proof.
  intros Hptr Hlen Hsel. cbn zeta.
  assert (∀ k r, is_Some (childResultMap st !! k) →
            is_Some (<[actualHash child := r]> (childResultMap st) !! k)) as Hkeep.
  { intros k r Hk. rewrite lookup_insert. by case_decide. }
  unfold mergeChild. destruct (isConsensusMin _).
  - destruct (selected st !! fileref.GetPath child) eqn:Hp; cbn.
    + split; [|done]. intros k Hk. by apply Hkeep, Hptr.
    + split; [|split].
      * intros k Hk. apply elem_of_app in Hk as [Hk|Hk]; [by apply Hkeep, Hptr|].
        apply list_elem_of_singleton in Hk as ->. by rewrite lookup_insert_eq.
      * rewrite length_app, map_size_insert_None by done. cbn. lia.
      * intros p k. rewrite lookup_insert. case_decide.
        -- intros [= <-]. apply elem_of_app. right. by left.
        -- intros Hk. apply elem_of_app. left. by eapply Hsel.
  - cbn. split; [|done]. intros k Hk. by apply Hkeep, Hptr.
Qed.

Lemma fold_mergeChild_links req cs : ∀ st,
  (∀ k, k ∈ Children (result st) → is_Some (childResultMap st !! k)) →
  length (Children (result st)) = size (selected st) →
  (∀ p k, selected st !! p = Some k → k ∈ Children (result st)) →
  let st' := fold_left (mergeChild req) cs st in
  (∀ k, k ∈ Children (result st') → is_Some (childResultMap st' !! k))
  ∧ length (Children (result st')) = size (selected st')
  ∧ (∀ p k, selected st' !! p = Some k → k ∈ Children (result st')).
Proof.
  induction cs as [|c cs IH]; intros st Hptr Hlen Hsel; [done|].
  cbn [fold_left].
  destruct (mergeChild_links req st c Hptr Hlen Hsel) as (? & ? & ?).
  by apply IH.
Qed.

(** X20. Whatever the responses are, every entry of the child list leads to
    a record, the child list has as many entries as there are selected paths,
    and every selected path leads to an entry of the child list. *)
Theorem child_list_matches_selected_paths req lR :
  let st := mergeResponses req lR in
  (∀ k, k ∈ Children (result st) → is_Some (childResultMap st !! k))
  ∧ length (Children (result st)) = size (selected st)
  ∧ (∀ p k, selected st !! p = Some k → k ∈ Children (result st)).
Proof.
  cbn zeta. unfold mergeResponses. rewrite fold_mergeResponse_trees.
  generalize (omap usableTree lR) as trees.
  assert ((∀ k, k ∈ Children (result initialState)
                → is_Some (childResultMap initialState !! k))
          ∧ length (Children (result initialState)) = size (selected initialState)
          ∧ (∀ p k, selected initialState !! p = Some k
                    → k ∈ Children (result initialState))) as Hinit.
  { cbn. split; [|split; [done|]].
    - intros k Hk. by apply elem_of_nil in Hk.
    - intros p k. by rewrite lookup_empty. }
  revert Hinit. generalize initialState as st. intros st Hst trees.
  revert st Hst. induction trees as [|root trees IH]; intros st Hst; [done|].
  cbn [fold_left]. apply IH. destruct Hst as (Hptr & Hlen & Hsel).
  unfold mergeTree, mergeResponse. cbn [err ref].
  apply (fold_mergeChild_links req (fileref.Children root)
           {| result := setRoot (result st) root; selected := selected st;
              childResultMap := childResultMap st |}); done.
Qed.

(** *** From the answers of the nodes to the listing *)

Lemma getListInfoFromBlobber_tree req b i answers cap st :
  blobbers req !! i = Some b →
  (length (rspCh st) < cap)%nat →
  ∃ r, getListInfoFromBlobber req b i (answers i) cap st
       = Some {| rspCh := rspCh st ++ [r]; dones := S (dones st) |}
       ∧ usableTree r = treeOf req answers i.
Proof.
  intros Hb Hroom. unfold treeOf. rewrite Hb.
  unfold getListInfoFromBlobber, returning, send.
  destruct (Nat.ltb_spec (length (rspCh st)) cap); [|exfalso; lia].
  destruct (NewListRequest _ _ _); [|by eexists].
  unfold listCallback.
  destruct (answers i) as [e|status [body|e]]; [by eexists| |by eexists].
  destruct (status =? StatusOK); [|by eexists].
  destruct (UnmarshalListResult body) as [[tree|e]|e]; by eexists.
Qed.

Lemma runTasks_trees req answers cap schedule : ∀ st,
  (∀ i, i ∈ schedule → (i < length (blobbers req))%nat) →
  (length (rspCh st) + length schedule ≤ cap)%nat →
  ∃ infos,
    runTasks req answers cap schedule st
    = Some {| rspCh := rspCh st ++ infos;
              dones := (dones st + length schedule)%nat |}
    ∧ length infos = length schedule
    ∧ omap usableTree infos = omap (treeOf req answers) schedule.
Proof.
  induction schedule as [|i schedule IH]; intros st Hlt Hcap.
  - exists []. cbn. rewrite app_nil_r, Nat.add_0_r. by destruct st.
  - cbn [runTasks]. cbn [length] in Hcap.
    destruct (lookup_lt_is_Some_2 (blobbers req) i) as [b Hb];
      [apply Hlt; by left|].
    rewrite Hb.
    destruct (getListInfoFromBlobber_tree req b i answers cap st Hb)
      as (r & -> & Hr); [lia|].
    destruct (IH {| rspCh := rspCh st ++ [r]; dones := S (dones st) |})
      as (infos & Hrun & Hlen & Htrees).
    + intros j Hj. apply Hlt. by right.
    + cbn. rewrite length_app. cbn. lia.
    + exists (r :: infos). rewrite Hrun. cbn [rspCh dones]. split; [|split].
      * f_equal. f_equal; [by rewrite <- app_assoc|cbn; lia].
      * cbn. by rewrite Hlen.
      * cbn [omap list_omap]. by rewrite Hr, Htrees.
Qed.

(** X21. Whatever the order in which the tasks finish, the listing
    returned is the merge of the trees of those nodes for which the request
    could be built, the answer had status 200 and the body decoded to a
    directory tree, taken in the order in which the tasks finished; the other
    nodes do not count. *)
Theorem listing_is_merge_of_answered_trees req answers schedule :
  schedule ≡ₚ seq 0 (length (blobbers req)) →
  GetListFromBlobbers req answers schedule
  = Some (fold_left (mergeTree req) (omap (treeOf req answers) schedule)
            initialState).
Proof.
  intros Hperm.
  assert (length schedule = length (blobbers req)) as Hlen
    by (rewrite Hperm; apply length_seq).
  destruct (runTasks_trees req answers (length (blobbers req)) schedule
              {| rspCh := []; dones := 0 |})
    as (infos & Hrun & Hinfos & Htrees).
  - intros i Hi. rewrite Hperm in Hi. apply elem_of_seq in Hi. lia.
  - cbn. lia.
  - unfold GetListFromBlobbers, getlistFromBlobbers. rewrite Hrun.
    cbn [app rspCh dones].
    rewrite Nat.add_0_l, Hlen, Nat.ltb_irrefl, Hinfos, Hlen, Nat.ltb_irrefl.
    rewrite take_ge by lia. cbn [fmap option_fmap option_map].
    unfold mergeResponses. by rewrite fold_mergeResponse_trees, Htrees.
Qed.

End MergeFacts2.


Lemma counter_counts_agreeing_children_witness :
  ∃ r,
    childResultMap (mergeResponses (request 75) threeAgree) !! "H(/a:h1)"%string
    = Some r
    ∧ consensus (cons r) = 3 ∧ fullconsensus (cons r) = 4
    ∧ NumBlocks r = 6 ∧ Size r = 15.
Proof.
  assert (∃ r, childResultMap (mergeResponses (request 75) threeAgree)
                 !! "H(/a:h1)"%string = Some r) as [r Hr]
    by (eexists; vm_compute; reflexivity).
  destruct (@counter_counts_agreeing_children fixtureHasher deps
              (request 75) threeAgree "H(/a:h1)"%string r Hr)
    as (c & cs & Hag & Hc & _ & Hf & _ & _ & _ & Hb & Hs).
  vm_compute in Hag. injection Hag as <- <-.
  exists r. split; [exact Hr|]. split; [exact Hc|]. split; [exact Hf|].
  split; [exact Hb|exact Hs].
Defined.

Lemma root_is_taken_from_last_usable_response_witness :
  let r := result (mergeResponses (request 25) oneAnswer) in
  Name r = "/"%string ∧ Path r = "/"%string ∧ Type_ r = "d"%string ∧ Size r = -1.
Proof.
  destruct (@root_is_taken_from_last_usable_response fixtureHasher deps
              (request 25) [] (ok 0 [fileA "h1"]) [failed 1]
              (rootWith [fileA "h1"]) eq_refl)
    as (Hn & Hp & Ht & Hs).
  - constructor; [reflexivity|constructor].
  - cbn zeta. split; [exact Hn|]. split; [exact Hp|]. split; [exact Ht|].
    exact (Hs eq_refl).
Defined.

Lemma root_blocks_with_one_usable_response_witness :
  let st := mergeResponses (request 25) oneAnswer in
  NumBlocks (result st) = 2 ∧ map NumBlocks (promoted st) = [2].
Proof.
  pose proof (@root_blocks_with_one_usable_response fixtureHasher deps
                (request 25) oneAnswer (rootWith [fileA "h1"]) eq_refl) as Hsum.
  cbn zeta in *. split; [rewrite Hsum; vm_compute; reflexivity|].
  vm_compute. reflexivity.
Defined.

Lemma listing_is_merge_of_answered_trees_witness :
  ∃ st,
    GetListFromBlobbers (request 25) answers [2; 0; 3; 1]%nat = Some st
    ∧ Children (result st) = ["H(/a:h1)"]%string
    ∧ omap (treeOf (request 25) answers) [2; 0; 3; 1]%nat
      = [rootWith [fileA "h1"]; rootWith [fileA "h2"]].
Proof.
  assert ([2; 0; 3; 1]%nat ≡ₚ seq 0 (length (blobbers (request 25)))) as Hperm.
  { cbn. apply (Permutation_trans (l' := [0; 2; 3; 1]%nat)); [apply perm_swap|].
    constructor.
    apply (Permutation_trans (l' := [2; 1; 3]%nat)); [constructor; apply perm_swap|].
    apply perm_swap. }
  pose proof (@listing_is_merge_of_answered_trees fixtureHasher deps
                (request 25) answers _ Hperm) as Hrun.
  eexists. split; [exact Hrun|]. split; vm_compute; reflexivity.
Defined.


End ListingMore.
